(** * mcoptions: a shallow embedding of the Monte Carlo pricing core

    The development follows the C sources of the library:

    - 64-bit and 32-bit unsigned integers are [Z] with the wrap-around
      written out ([wrap64], [wrap32]);
    - a C [double] is a carrier [D] with the IEEE operations the code uses
      (class [Arith]) and the [math.h] functions it calls (class [Libm]);
      the binary64 instance is built on the primitive floats, an exact
      instance on the canonical rationals;
    - a nullable [mco_ctx *] is an [option mco_ctx]; a pricer returns the
      context it leaves behind together with the price;
    - the host allocator and [pthread_create] are not part of the sources:
      their outcome is an input of the model (record [host]).

    Part I holds the definitions, Part II the lemmas and theorems. *)

From Stdlib Require Import ZArith List Bool Lia QArith Qcanon Floats.
Import ListNotations.

Local Open Scope Z_scope.

(* ================================================================== *)
(** * Part I: the model *)
(* ================================================================== *)

(** ** Machine integers *)

Definition wrap64 (z : Z) : Z := z mod 2 ^ 64.
Definition wrap32 (z : Z) : Z := z mod 2 ^ 32.

(** ** rng: xoshiro256** with SplitMix64 seeding *)

Record mco_rng : Type := mk_rng { s0 : Z; s1 : Z; s2 : Z; s3 : Z }.

(** [splitmix64(&state)]: the new state and the value returned. *)
Definition splitmix64 (state : Z) : Z * Z :=
  let state' := wrap64 (state + 0x9e3779b97f4a7c15) in
  let z := state' in
  let z := wrap64 (Z.lxor z (Z.shiftr z 30) * 0xbf58476d1ce4e5b9) in
  let z := wrap64 (Z.lxor z (Z.shiftr z 27) * 0x94d049bb133111eb) in
  (state', Z.lxor z (Z.shiftr z 31)).

Definition rotl (x : Z) (k : Z) : Z :=
  Z.lor (wrap64 (Z.shiftl x k)) (Z.shiftr x (64 - k)).

(** [mco_rng_next]: the state after the call and the 64-bit output. *)
Definition mco_rng_next (rng : mco_rng) : mco_rng * Z :=
  let result := wrap64 (rotl (wrap64 (s1 rng * 5)) 7 * 9) in
  let t := wrap64 (Z.shiftl (s1 rng) 17) in
  let a2 := Z.lxor (s2 rng) (s0 rng) in
  let a3 := Z.lxor (s3 rng) (s1 rng) in
  let a1 := Z.lxor (s1 rng) a2 in
  let a0 := Z.lxor (s0 rng) a3 in
  let a2 := Z.lxor a2 t in
  let a3 := rotl a3 45 in
  (mk_rng a0 a1 a2 a3, result).

Definition mco_rng_seed (seed : Z) : mco_rng :=
  let sm_state := seed in
  let '(sm_state, w0) := splitmix64 sm_state in
  let '(sm_state, w1) := splitmix64 sm_state in
  let '(sm_state, w2) := splitmix64 sm_state in
  let '(_, w3) := splitmix64 sm_state in
  if (w0 =? 0) && (w1 =? 0) && (w2 =? 0) && (w3 =? 0)
  then mk_rng 1 w1 w2 w3
  else mk_rng w0 w1 w2 w3.

Definition JUMP : list Z :=
  [0x180ec6d33cfd0aba; 0xd5a61266f0c9392c;
   0xa9582618e03fc9aa; 0x39abdc4529b1661c].

(** One turn of the inner loop of [mco_rng_jump] for bit [b] of [word]:
    the accumulator absorbs the current state when the bit is set, then the
    generator advances. *)
Definition jump_bit (word : Z) (acc_rng : mco_rng * mco_rng) (b : nat)
  : mco_rng * mco_rng :=
  let '(acc, rng) := acc_rng in
  let acc' :=
    if Z.testbit word (Z.of_nat b)
    then mk_rng (Z.lxor (s0 acc) (s0 rng)) (Z.lxor (s1 acc) (s1 rng))
                (Z.lxor (s2 acc) (s2 rng)) (Z.lxor (s3 acc) (s3 rng))
    else acc in
  (acc', fst (mco_rng_next rng)).

Definition jump_word (acc_rng : mco_rng * mco_rng) (word : Z)
  : mco_rng * mco_rng :=
  fold_left (jump_bit word) (seq 0 64) acc_rng.

Definition mco_rng_jump (rng : mco_rng) : mco_rng :=
  fst (fold_left jump_word JUMP (mk_rng 0 0 0 0, rng)).

(** ** Error codes (mcoptions.h) *)

Inductive mco_error : Type :=
| MCO_OK
| MCO_ERR_NOMEM
| MCO_ERR_INVALID_ARG
| MCO_ERR_THREAD.

(** The integer value of each enumerator. *)
Definition mco_error_code (e : mco_error) : Z :=
  match e with
  | MCO_OK => 0
  | MCO_ERR_NOMEM => 1
  | MCO_ERR_INVALID_ARG => 2
  | MCO_ERR_THREAD => 3
  end.

Inductive mco_option_type : Type := MCO_CALL | MCO_PUT.

(** ** Doubles

    The arithmetic the C code performs on [double] values.  [dlt a b] is the
    C comparison [a < b] and [dle a b] is [a <= b] (so [a > b] is
    [dlt b a]); [of_u64 n] is the cast [(double)n] of an unsigned integer;
    [dlit q] is the literal whose exact value is the rational [q]. *)

Class Arith (D : Type) : Type := {
  dadd : D -> D -> D;
  dsub : D -> D -> D;
  dmul : D -> D -> D;
  ddiv : D -> D -> D;
  dneg : D -> D;
  dlt : D -> D -> bool;
  dle : D -> D -> bool;
  of_u64 : Z -> D;
  dlit : Q -> D
}.

(** The functions of [math.h] the pricers call, and the constant [M_PI]. *)
Class Libm (D : Type) : Type := {
  d_sqrt : D -> D;
  d_exp : D -> D;
  d_log : D -> D;
  d_cos : D -> D;
  d_fabs : D -> D;
  d_fmax : D -> D -> D;
  M_PI : D
}.

Declare Scope dbl_scope.
Delimit Scope dbl_scope with D.
Notation "x + y" := (dadd x y) : dbl_scope.
Notation "x - y" := (dsub x y) : dbl_scope.
Notation "x * y" := (dmul x y) : dbl_scope.
Notation "x / y" := (ddiv x y) : dbl_scope.
Notation "- x" := (dneg x) : dbl_scope.
Notation "x <? y" := (dlt x y) : dbl_scope.
Notation "x <=? y" := (dle x y) : dbl_scope.
Notation "x >? y" := (dlt y x) (only parsing) : dbl_scope.
Notation "x >=? y" := (dle y x) (only parsing) : dbl_scope.

(** The literals that occur in the sources. *)
Definition d0 {D} `{Arith D} : D := dlit 0.
Definition d1 {D} `{Arith D} : D := dlit 1.
Definition d2 {D} `{Arith D} : D := dlit 2.
Definition d_half {D} `{Arith D} : D := dlit (1 # 2).
Definition d_1em12 {D} `{Arith D} : D := dlit (1 # 1000000000000).
Definition d_2pm53 {D} `{Arith D} : D := dlit (1 # 9007199254740992).

(** ** The host: allocator and thread creation

    [malloc_ok n] tells whether a request of [n] bytes is served,
    [pthread_create_ok i] whether the [i]-th worker of a dispatch starts. *)

Record host : Type := {
  malloc_ok : Z -> bool;
  pthread_create_ok : Z -> bool
}.

(** Replace the element at an index; an index past the end changes nothing
    (the C callers never write past the arrays they allocate). *)
Fixpoint list_update {A} (l : list A) (i : nat) (f : A -> A) : list A :=
  match l, i with
  | [], _ => []
  | x :: t, O => f x :: t
  | x :: t, S i' => x :: list_update t i' f
  end.

(** ** Context (internal/context.h, context.c) *)

Record mco_ctx (D : Type) : Type := mk_ctx {
  num_simulations : Z;
  num_steps : Z;
  seed : Z;
  num_threads : Z;
  antithetic_enabled : Z;
  control_variates_enabled : Z;
  stratified_enabled : Z;
  model : Z;
  sabr_alpha : D;
  sabr_beta : D;
  sabr_rho : D;
  sabr_nu : D;
  rng : mco_rng;
  last_error : mco_error
}.

Arguments mk_ctx {D}.
Arguments num_simulations {D}.
Arguments num_steps {D}.
Arguments seed {D}.
Arguments num_threads {D}.
Arguments antithetic_enabled {D}.
Arguments control_variates_enabled {D}.
Arguments stratified_enabled {D}.
Arguments model {D}.
Arguments sabr_alpha {D}.
Arguments sabr_beta {D}.
Arguments sabr_rho {D}.
Arguments sabr_nu {D}.
Arguments rng {D}.
Arguments last_error {D}.

Definition MCO_DEFAULT_SIMULATIONS : Z := 100000.
Definition MCO_DEFAULT_STEPS : Z := 252.
Definition MCO_DEFAULT_SEED : Z := 0xDEADBEEF.
Definition MCO_DEFAULT_THREADS : Z := 1.

(** [sizeof(mco_ctx)] on an LP64 target. *)
Definition sizeof_mco_ctx : Z := 120.

Section Context_ops.
Context {D : Type} `{Arith D}.

Definition set_last_error (ctx : mco_ctx D) (e : mco_error) : mco_ctx D :=
  mk_ctx (num_simulations ctx) (num_steps ctx) (seed ctx) (num_threads ctx)
         (antithetic_enabled ctx) (control_variates_enabled ctx)
         (stratified_enabled ctx) (model ctx)
         (sabr_alpha ctx) (sabr_beta ctx) (sabr_rho ctx) (sabr_nu ctx)
         (rng ctx) e.

Definition set_rng (ctx : mco_ctx D) (r : mco_rng) : mco_ctx D :=
  mk_ctx (num_simulations ctx) (num_steps ctx) (seed ctx) (num_threads ctx)
         (antithetic_enabled ctx) (control_variates_enabled ctx)
         (stratified_enabled ctx) (model ctx)
         (sabr_alpha ctx) (sabr_beta ctx) (sabr_rho ctx) (sabr_nu ctx)
         r (last_error ctx).

Definition mco_ctx_new (h : host) : option (mco_ctx D) :=
  if malloc_ok h sizeof_mco_ctx
  then Some (mk_ctx MCO_DEFAULT_SIMULATIONS MCO_DEFAULT_STEPS
                    MCO_DEFAULT_SEED MCO_DEFAULT_THREADS
                    0 0 0 0 d0 d1 d0 d0
                    (mco_rng_seed MCO_DEFAULT_SEED) MCO_OK)
  else None.

Definition mco_set_simulations (ctx : option (mco_ctx D)) (n : Z)
  : option (mco_ctx D) :=
  match ctx with
  | Some c =>
      if 0 <? n
      then Some (mk_ctx n (num_steps c) (seed c) (num_threads c)
                   (antithetic_enabled c) (control_variates_enabled c)
                   (stratified_enabled c) (model c)
                   (sabr_alpha c) (sabr_beta c) (sabr_rho c) (sabr_nu c)
                   (rng c) (last_error c))
      else Some c
  | None => None
  end.

Definition mco_get_simulations (ctx : option (mco_ctx D)) : Z :=
  match ctx with Some c => num_simulations c | None => 0 end.

Definition mco_set_steps (ctx : option (mco_ctx D)) (n : Z)
  : option (mco_ctx D) :=
  match ctx with
  | Some c =>
      if 0 <? n
      then Some (mk_ctx (num_simulations c) n (seed c) (num_threads c)
                   (antithetic_enabled c) (control_variates_enabled c)
                   (stratified_enabled c) (model c)
                   (sabr_alpha c) (sabr_beta c) (sabr_rho c) (sabr_nu c)
                   (rng c) (last_error c))
      else Some c
  | None => None
  end.

Definition mco_get_steps (ctx : option (mco_ctx D)) : Z :=
  match ctx with Some c => num_steps c | None => 0 end.

Definition mco_set_seed (ctx : option (mco_ctx D)) (sd : Z)
  : option (mco_ctx D) :=
  match ctx with
  | Some c =>
      Some (mk_ctx (num_simulations c) (num_steps c) sd (num_threads c)
              (antithetic_enabled c) (control_variates_enabled c)
              (stratified_enabled c) (model c)
              (sabr_alpha c) (sabr_beta c) (sabr_rho c) (sabr_nu c)
              (mco_rng_seed sd) (last_error c))
  | None => None
  end.

Definition mco_get_seed (ctx : option (mco_ctx D)) : Z :=
  match ctx with Some c => seed c | None => 0 end.

Definition mco_set_threads (ctx : option (mco_ctx D)) (n : Z)
  : option (mco_ctx D) :=
  match ctx with
  | Some c =>
      Some (mk_ctx (num_simulations c) (num_steps c) (seed c)
              (if 0 <? n then n else 1)
              (antithetic_enabled c) (control_variates_enabled c)
              (stratified_enabled c) (model c)
              (sabr_alpha c) (sabr_beta c) (sabr_rho c) (sabr_nu c)
              (rng c) (last_error c))
  | None => None
  end.

Definition mco_get_threads (ctx : option (mco_ctx D)) : Z :=
  match ctx with Some c => num_threads c | None => 0 end.

Definition mco_set_antithetic (ctx : option (mco_ctx D)) (enabled : Z)
  : option (mco_ctx D) :=
  match ctx with
  | Some c =>
      Some (mk_ctx (num_simulations c) (num_steps c) (seed c)
              (num_threads c)
              (if enabled =? 0 then 0 else 1) (control_variates_enabled c)
              (stratified_enabled c) (model c)
              (sabr_alpha c) (sabr_beta c) (sabr_rho c) (sabr_nu c)
              (rng c) (last_error c))
  | None => None
  end.

Definition mco_get_antithetic (ctx : option (mco_ctx D)) : Z :=
  match ctx with Some c => antithetic_enabled c | None => 0 end.

Definition mco_ctx_last_error (ctx : option (mco_ctx D)) : mco_error :=
  match ctx with Some c => last_error c | None => MCO_ERR_INVALID_ARG end.

End Context_ops.

(** ** GBM model blocks (internal/models/gbm.h) *)

Record mco_gbm (D : Type) : Type := mk_gbm {
  g_spot : D;
  g_rate : D;
  g_volatility : D;
  g_time : D;
  g_drift : D;
  g_diffusion : D;
  g_discount : D
}.

Arguments mk_gbm {D}.
Arguments g_spot {D}.
Arguments g_rate {D}.
Arguments g_volatility {D}.
Arguments g_time {D}.
Arguments g_drift {D}.
Arguments g_diffusion {D}.
Arguments g_discount {D}.

Record mco_gbm_path (D : Type) : Type := mk_gbm_path {
  p_spot : D;
  p_dt : D;
  p_drift_dt : D;
  p_diffusion_dt : D;
  p_discount : D;
  p_num_steps : Z
}.

Arguments mk_gbm_path {D}.
Arguments p_spot {D}.
Arguments p_dt {D}.
Arguments p_drift_dt {D}.
Arguments p_diffusion_dt {D}.
Arguments p_discount {D}.
Arguments p_num_steps {D}.

(** ** Thread work unit (internal/methods/thread_pool.h) *)

Record mco_thread_work (D : Type) : Type := mk_work {
  w_rng : mco_rng;
  start_sim : Z;
  end_sim : Z;
  partial_sum : D;
  partial_sum_sq : D;
  w_spot : D;
  w_strike : D;
  w_rate : D;
  w_volatility : D;
  w_time_to_maturity : D;
  w_option_type : Z;
  w_antithetic : Z
}.

Arguments mk_work {D}.
Arguments w_rng {D}.
Arguments start_sim {D}.
Arguments end_sim {D}.
Arguments partial_sum {D}.
Arguments partial_sum_sq {D}.
Arguments w_spot {D}.
Arguments w_strike {D}.
Arguments w_rate {D}.
Arguments w_volatility {D}.
Arguments w_time_to_maturity {D}.
Arguments w_option_type {D}.
Arguments w_antithetic {D}.

Definition sizeof_mco_thread_work : Z := 112.
Definition sizeof_pthread_t : Z := 8.
Definition sizeof_double : Z := 8.
Definition sizeof_size_t : Z := 8.
Definition sizeof_uint64_t : Z := 8.

Section Engine.
Context {D : Type} {AD : Arith D} {LD : Libm D}.
Local Open Scope dbl_scope.

(** *** Uniform and normal draws (rng.c) *)

Definition mco_rng_uniform (r : mco_rng) : mco_rng * D :=
  let '(r', x) := mco_rng_next r in
  (r', of_u64 (Z.shiftr x 11) * d_2pm53).

Definition mco_rng_normal (r : mco_rng) : mco_rng * D :=
  let '(r, u1) := mco_rng_uniform r in
  let '(r, u2) := mco_rng_uniform r in
  let u1 := d1 - u1 in
  let rad := d_sqrt (- d2 * d_log u1) in
  let theta := d2 * M_PI * u2 in
  (r, rad * d_cos theta).

(** *** Payoffs (internal/instruments/payoff.h) *)

Definition mco_payoff_call (spot strike : D) : D :=
  if spot >? strike then spot - strike else d0.

Definition mco_payoff_put (spot strike : D) : D :=
  if strike >? spot then strike - spot else d0.

Definition mco_payoff (spot strike : D) (type : mco_option_type) : D :=
  match type with
  | MCO_CALL => mco_payoff_call spot strike
  | MCO_PUT => mco_payoff_put spot strike
  end.

(** *** GBM kernels *)

Definition mco_gbm_init (spot rate volatility time : D) : mco_gbm D :=
  mk_gbm spot rate volatility time
         ((rate - d_half * volatility * volatility) * time)
         (volatility * d_sqrt time)
         (d_exp (- rate * time)).

Definition mco_gbm_terminal (m : mco_gbm D) (z : D) : D :=
  g_spot m * d_exp (g_drift m + g_diffusion m * z).

Definition mco_gbm_simulate (m : mco_gbm D) (r : mco_rng) : mco_rng * D :=
  let '(r', z) := mco_rng_normal r in
  (r', mco_gbm_terminal m z).

Definition mco_gbm_path_init (spot rate volatility time : D) (nsteps : Z)
  : mco_gbm_path D :=
  let dt := time / of_u64 nsteps in
  mk_gbm_path spot dt
              ((rate - d_half * volatility * volatility) * dt)
              (volatility * d_sqrt dt)
              (d_exp (- rate * time))
              nsteps.

Definition mco_gbm_step (m : mco_gbm_path D) (current_spot z : D) : D :=
  current_spot * d_exp (p_drift_dt m + p_diffusion_dt m * z).

(** The loop of [mco_gbm_simulate_path]: [n] further vertices after
    [cur]. *)
Fixpoint gbm_path_from (m : mco_gbm_path D) (n : nat) (r : mco_rng)
         (cur : D) : mco_rng * list D :=
  match n with
  | O => (r, [])
  | S n' =>
      let '(r1, z) := mco_rng_normal r in
      let nxt := mco_gbm_step m cur z in
      let '(r2, rest) := gbm_path_from m n' r1 nxt in
      (r2, nxt :: rest)
  end.

(** The path buffer after the call: [path[0] = spot] and one vertex per
    step. *)
Definition mco_gbm_simulate_path (m : mco_gbm_path D) (r : mco_rng)
  : mco_rng * list D :=
  let '(r', rest) :=
    gbm_path_from m (Z.to_nat (p_num_steps m)) r (p_spot m) in
  (r', p_spot m :: rest).

(** *** Antithetic variates
    (internal/variance_reduction/antithetic.h) *)

(** One turn of the loop of [mco_antithetic_european_sum]. *)
Definition antithetic_pair (m : mco_gbm D) (strike : D)
           (type : mco_option_type) (st : mco_rng * D) : mco_rng * D :=
  let '(r, sum) := st in
  let '(r', z) := mco_rng_normal r in
  let spot_plus := mco_gbm_terminal m z in
  let spot_minus := mco_gbm_terminal m (- z) in
  let sum := sum + mco_payoff spot_plus strike type in
  let sum := sum + mco_payoff spot_minus strike type in
  (r', sum).

Definition mco_antithetic_european_sum (m : mco_gbm D) (r : mco_rng)
           (strike : D) (type : mco_option_type) (num_pairs : Z)
  : mco_rng * D :=
  Nat.iter (Z.to_nat num_pairs) (antithetic_pair m strike type) (r, d0).

Definition antithetic_num_pairs (n : Z) : Z :=
  let num_pairs := (n / 2)%Z in
  if (num_pairs =? 0)%Z then 1%Z else num_pairs.

Definition mco_antithetic_european (m : mco_gbm D) (r : mco_rng)
           (strike : D) (type : mco_option_type) (num_sims : Z)
  : mco_rng * D :=
  let num_pairs := antithetic_num_pairs num_sims in
  let '(r', sum) :=
    mco_antithetic_european_sum m r strike type num_pairs in
  let mean := sum / of_u64 (wrap64 (2 * num_pairs)) in
  (r', g_discount m * mean).

(** *** Thread pool (methods/thread_pool.c) *)

(** The body of the loop of [mco_thread_work_init] for thread [i]; the
    loop state is the running RNG, the running start index and the work
    array. *)
Definition thread_work_init_step (sims_per_thread remainder : Z)
           (st : mco_rng * Z * list (mco_thread_work D)) (i : nat)
  : mco_rng * Z * list (mco_thread_work D) :=
  let '(r, start, work) := st in
  let count :=
    wrap64 (sims_per_thread
            + (if (Z.of_nat i <? remainder)%Z then 1 else 0)) in
  let work' :=
    list_update work i
      (fun w => mk_work r start (wrap64 (start + count)) d0 d0
                  (w_spot w) (w_strike w) (w_rate w) (w_volatility w)
                  (w_time_to_maturity w) (w_option_type w)
                  (w_antithetic w)) in
  (mco_rng_jump r, wrap64 (start + count), work').

Definition mco_thread_work_init (work : list (mco_thread_work D))
           (nthreads : Z) (base_rng : mco_rng) (total_sims : Z)
  : list (mco_thread_work D) :=
  let sims_per_thread := (total_sims / nthreads)%Z in
  let remainder := (total_sims mod nthreads)%Z in
  snd (fold_left (thread_work_init_step sims_per_thread remainder)
                 (seq 0 (Z.to_nat nthreads))
                 (base_rng, 0%Z, work)).

Definition option_type_of_int (t : Z) : mco_option_type :=
  if (t =? 0)%Z then MCO_CALL else MCO_PUT.

Definition int_of_option_type (t : mco_option_type) : Z :=
  match t with MCO_CALL => 0%Z | MCO_PUT => 1%Z end.

Definition set_work_result (w : mco_thread_work D) (r : mco_rng)
           (e : Z) (sum : D) : mco_thread_work D :=
  mk_work r (start_sim w) e sum (partial_sum_sq w)
          (w_spot w) (w_strike w) (w_rate w) (w_volatility w)
          (w_time_to_maturity w) (w_option_type w) (w_antithetic w).

(** One simulated payoff added to a running sum: the loop body shared by
    the plain European estimators. *)
Definition european_sim (m : mco_gbm D) (strike : D)
           (type : mco_option_type) (st : mco_rng * D) : mco_rng * D :=
  let '(r, sum) := st in
  let '(r', s_t) := mco_gbm_simulate m r in
  (r', sum + mco_payoff s_t strike type).

Definition worker_european_basic (w : mco_thread_work D)
  : mco_thread_work D :=
  let m := mco_gbm_init (w_spot w) (w_rate w) (w_volatility w)
                        (w_time_to_maturity w) in
  let type := option_type_of_int (w_option_type w) in
  let '(r, sum) :=
    Nat.iter (Z.to_nat (end_sim w - start_sim w))
             (european_sim m (w_strike w) type) (w_rng w, d0) in
  set_work_result w r (end_sim w) sum.

Definition worker_european_antithetic (w : mco_thread_work D)
  : mco_thread_work D :=
  let m := mco_gbm_init (w_spot w) (w_rate w) (w_volatility w)
                        (w_time_to_maturity w) in
  let type := option_type_of_int (w_option_type w) in
  let n := wrap64 (end_sim w - start_sim w) in
  let num_pairs := antithetic_num_pairs n in
  let '(r, sum) :=
    mco_antithetic_european_sum m (w_rng w) (w_strike w) type num_pairs in
  set_work_result w r (wrap64 (start_sim w + 2 * num_pairs)) sum.

(** The zero-filled work unit [mco_calloc] hands out. *)
Definition zero_work : mco_thread_work D :=
  mk_work (mk_rng 0 0 0 0) 0 0 d0 d0 d0 d0 d0 d0 d0 0 0.

Definition set_work_params (spot strike rate volatility time_to_maturity : D)
           (type : Z) (antithetic : Z) (w : mco_thread_work D)
  : mco_thread_work D :=
  mk_work (w_rng w) (start_sim w) (end_sim w)
          (partial_sum w) (partial_sum_sq w)
          spot strike rate volatility time_to_maturity type antithetic.

(** Fork and join: every worker owns its unit and touches nothing else,
    so the joined result is the worker applied to each unit; the partial
    sums are then added in thread order. *)
Definition mco_parallel_european (h : host) (ctx : mco_ctx D)
           (spot strike rate volatility time_to_maturity : D) (type : Z)
  : mco_ctx D * D :=
  let nthreads := num_threads ctx in
  let total_sims := num_simulations ctx in
  if negb (malloc_ok h (nthreads * sizeof_mco_thread_work))
  then (set_last_error ctx MCO_ERR_NOMEM, d0)
  else if negb (malloc_ok h (wrap64 (nthreads * sizeof_pthread_t)))
  then (set_last_error ctx MCO_ERR_NOMEM, d0)
  else
    let work := repeat zero_work (Z.to_nat nthreads) in
    let work := mco_thread_work_init work nthreads (rng ctx) total_sims in
    let work :=
      map (set_work_params spot strike rate volatility time_to_maturity
                           type (antithetic_enabled ctx)) work in
    let worker_fn :=
      if (antithetic_enabled ctx =? 0)%Z
      then worker_european_basic
      else worker_european_antithetic in
    if negb (forallb (fun i => pthread_create_ok h (Z.of_nat i))
                     (seq 0 (Z.to_nat nthreads)))
    then (set_last_error ctx MCO_ERR_THREAD, d0)
    else
      let work := map worker_fn work in
      let '(total_sum, total_paths) :=
        fold_left
          (fun acc w =>
             (fst acc + partial_sum w,
              wrap64 (snd acc + wrap64 (end_sim w - start_sim w))))
          work (d0, 0%Z) in
      let discount := d_exp (- rate * time_to_maturity) in
      (ctx, discount * (total_sum / of_u64 total_paths)).

(** *** European pricer (instruments/european.c) *)

Definition input_rejected (spot strike volatility time_to_maturity : D)
  : bool :=
  (spot <=? d0) || (strike <=? d0) || (volatility <? d0)
  || (time_to_maturity <? d0).

Definition price_european_basic (ctx : mco_ctx D)
           (spot strike rate volatility time_to_maturity : D)
           (type : mco_option_type) : mco_ctx D * D :=
  let m := mco_gbm_init spot rate volatility time_to_maturity in
  let n := num_simulations ctx in
  let '(r, sum) :=
    Nat.iter (Z.to_nat n) (european_sim m strike type) (rng ctx, d0) in
  (set_rng ctx r, g_discount m * (sum / of_u64 n)).

Definition price_european_antithetic (ctx : mco_ctx D)
           (spot strike rate volatility time_to_maturity : D)
           (type : mco_option_type) : mco_ctx D * D :=
  let m := mco_gbm_init spot rate volatility time_to_maturity in
  let '(r, price) :=
    mco_antithetic_european m (rng ctx) strike type (num_simulations ctx) in
  (set_rng ctx r, price).

Definition mco_price_european (h : host) (ctx : option (mco_ctx D))
           (spot strike rate volatility time_to_maturity : D)
           (type : mco_option_type) : option (mco_ctx D) * D :=
  match ctx with
  | None => (None, d0)
  | Some c =>
      if input_rejected spot strike volatility time_to_maturity
      then (Some (set_last_error c MCO_ERR_INVALID_ARG), d0)
      else if (1 <? num_threads c)%Z
      then
        let '(c', p) :=
          mco_parallel_european h c spot strike rate volatility
                                time_to_maturity (int_of_option_type type) in
        (Some c', p)
      else if negb (antithetic_enabled c =? 0)%Z
      then
        let '(c', p) :=
          price_european_antithetic c spot strike rate volatility
                                    time_to_maturity type in
        (Some c', p)
      else
        let '(c', p) :=
          price_european_basic c spot strike rate volatility
                               time_to_maturity type in
        (Some c', p)
  end.

End Engine.

(** ** Path-dependent instruments *)

Inductive mco_digital_type : Type := MCO_DIGITAL_CASH | MCO_DIGITAL_ASSET.

Inductive mco_barrier_style : Type :=
| MCO_BARRIER_DOWN_IN
| MCO_BARRIER_DOWN_OUT
| MCO_BARRIER_UP_IN
| MCO_BARRIER_UP_OUT.

Inductive mco_asian_type : Type := MCO_ASIAN_ARITHMETIC | MCO_ASIAN_GEOMETRIC.

Inductive mco_asian_strike : Type :=
| MCO_ASIAN_FIXED_STRIKE
| MCO_ASIAN_FLOATING_STRIKE.

Inductive mco_lookback_strike : Type :=
| MCO_LOOKBACK_FLOATING
| MCO_LOOKBACK_FIXED.

Section Instruments.
Context {D : Type} {AD : Arith D} {LD : Libm D}.
Local Open Scope dbl_scope.

(** A Monte Carlo loop over [n] paths: [payoff] draws one path from the
    running RNG and returns its payoff, which is added to the running
    sum. *)
Definition mc_sum (payoff : mco_rng -> mco_rng * D) (n : Z) (r : mco_rng)
  : mco_rng * D :=
  Nat.iter (Z.to_nat n)
           (fun st : mco_rng * D =>
              let '(r', p) := payoff (fst st) in (r', snd st + p))
           (r, d0).

(** *** Digital options (digital.c) *)

Definition digital_payoff (m : mco_gbm D) (strike payout : D)
           (digital_type : mco_digital_type) (option_type : mco_option_type)
           (r : mco_rng) : mco_rng * D :=
  let '(r', s_T) := mco_gbm_simulate m r in
  let itm :=
    match option_type with
    | MCO_CALL => s_T >? strike
    | MCO_PUT => s_T <? strike
    end in
  (r', if itm
       then match digital_type with
            | MCO_DIGITAL_CASH => payout
            | MCO_DIGITAL_ASSET => s_T
            end
       else d0).

Definition mco_price_digital (ctx : option (mco_ctx D))
           (spot strike payout rate volatility time : D)
           (digital_type : mco_digital_type) (option_type : mco_option_type)
  : option (mco_ctx D) * D :=
  match ctx with
  | None => (None, d0)
  | Some c =>
      let n_paths := num_simulations c in
      let m := mco_gbm_init spot rate volatility time in
      let '(_, sum_payoff) :=
        mc_sum (digital_payoff m strike payout digital_type option_type)
               n_paths (rng c) in
      (Some c, g_discount m * (sum_payoff / of_u64 n_paths))
  end.

(** *** Barrier options (barrier.c) *)

Definition bridge_hit_prob (s1 s2 h vol dt : D) (is_up : bool) : D :=
  if is_up then
    if (s1 >=? h) || (s2 >=? h) then d1
    else if (s1 <=? d0) || (s2 <=? d0) then d0
    else
      let log1 := d_log (h / s1) in
      let log2 := d_log (h / s2) in
      if (log1 <=? d0) || (log2 <=? d0) then d1
      else
        let var := vol * vol * dt in
        d_exp (- d2 * log1 * log2 / var)
  else
    if (s1 <=? h) || (s2 <=? h) then d1
    else if (s1 <=? d0) || (s2 <=? d0) then d0
    else
      let log1 := d_log (s1 / h) in
      let log2 := d_log (s2 / h) in
      if (log1 <=? d0) || (log2 <=? d0) then d1
      else
        let var := vol * vol * dt in
        d_exp (- d2 * log1 * log2 / var).

(** The monitoring loop over the segments of a path: it stops at the
    first hit; a segment that passes the discrete check costs one uniform
    draw. *)
Fixpoint barrier_scan (is_up : bool) (barrier vol dt : D)
         (path : list D) (r : mco_rng) : mco_rng * bool :=
  match path with
  | s1 :: ((s2 :: _) as rest) =>
      if (if is_up
          then (s1 >=? barrier) || (s2 >=? barrier)
          else (s1 <=? barrier) || (s2 <=? barrier))
      then (r, true)
      else
        let p_hit := bridge_hit_prob s1 s2 barrier vol dt is_up in
        let '(r', u) := mco_rng_uniform r in
        if u <? p_hit then (r', true)
        else barrier_scan is_up barrier vol dt rest r'
  | _ => (r, false)
  end.

Definition barrier_payoff (m : mco_gbm_path D)
           (strike barrier rebate vol dt : D) (nsteps : Z)
           (is_up is_knock_in : bool) (option_type : mco_option_type)
           (r : mco_rng) : mco_rng * D :=
  let '(r1, path) := mco_gbm_simulate_path m r in
  let '(r2, barrier_hit) := barrier_scan is_up barrier vol dt path r1 in
  let terminal := nth (Z.to_nat nsteps) path d0 in
  (r2,
   if is_knock_in
   then if barrier_hit then mco_payoff terminal strike option_type else d0
   else if negb barrier_hit then mco_payoff terminal strike option_type
        else rebate).

Definition mco_price_barrier (h : host) (ctx : option (mco_ctx D))
           (spot strike barrier rebate rate volatility time : D)
           (nsteps : Z) (barrier_type : mco_barrier_style)
           (option_type : mco_option_type) : option (mco_ctx D) * D :=
  match ctx with
  | None => (None, d0)
  | Some c =>
      if (nsteps =? 0)%Z then (Some c, d0)
      else
        let n_paths := num_simulations c in
        if negb (malloc_ok h (wrap64 ((nsteps + 1) * sizeof_double)))
        then (Some (set_last_error c MCO_ERR_NOMEM), d0)
        else
          let m := mco_gbm_path_init spot rate volatility time nsteps in
          let dt := time / of_u64 nsteps in
          let is_up :=
            match barrier_type with
            | MCO_BARRIER_UP_IN | MCO_BARRIER_UP_OUT => true
            | _ => false
            end in
          let is_knock_in :=
            match barrier_type with
            | MCO_BARRIER_DOWN_IN | MCO_BARRIER_UP_IN => true
            | _ => false
            end in
          let '(_, sum_payoff) :=
            mc_sum (barrier_payoff m strike barrier rebate volatility dt
                                   nsteps is_up is_knock_in option_type)
                   n_paths (rng c) in
          (Some c, p_discount m * (sum_payoff / of_u64 n_paths))
  end.

(** *** Asian options (asian.c) *)

Definition asian_payoff (m : mco_gbm_path D) (strike : D) (num_obs : Z)
           (avg_type : mco_asian_type) (strike_type : mco_asian_strike)
           (option_type : mco_option_type) (r : mco_rng) : mco_rng * D :=
  let '(r', path) := mco_gbm_simulate_path m r in
  let observed := firstn (Z.to_nat num_obs) (tl path) in
  let avg :=
    match avg_type with
    | MCO_ASIAN_ARITHMETIC =>
        fold_left (fun sum x => sum + x) observed d0 / of_u64 num_obs
    | MCO_ASIAN_GEOMETRIC =>
        d_exp (fold_left (fun log_sum x => log_sum + d_log x) observed d0
               / of_u64 num_obs)
    end in
  let terminal := nth (Z.to_nat num_obs) path d0 in
  (r',
   match strike_type with
   | MCO_ASIAN_FIXED_STRIKE => mco_payoff avg strike option_type
   | MCO_ASIAN_FLOATING_STRIKE =>
       match option_type with
       | MCO_CALL => d_fmax (terminal - avg) d0
       | MCO_PUT => d_fmax (avg - terminal) d0
       end
   end).

Definition mco_price_asian (h : host) (ctx : option (mco_ctx D))
           (spot strike rate volatility time_to_maturity : D)
           (num_obs : Z) (avg_type : mco_asian_type)
           (strike_type : mco_asian_strike) (option_type : mco_option_type)
  : option (mco_ctx D) * D :=
  match ctx with
  | None => (None, d0)
  | Some c =>
      if (num_obs =? 0)%Z then (Some c, d0)
      else if input_rejected spot strike volatility time_to_maturity
      then (Some (set_last_error c MCO_ERR_INVALID_ARG), d0)
      else
        let n_paths := num_simulations c in
        if negb (malloc_ok h (wrap64 ((num_obs + 1) * sizeof_double)))
        then (Some (set_last_error c MCO_ERR_NOMEM), d0)
        else
          let m :=
            mco_gbm_path_init spot rate volatility time_to_maturity
                              num_obs in
          let '(_, sum_payoff) :=
            mc_sum (asian_payoff m strike num_obs avg_type strike_type
                                 option_type)
                   n_paths (rng c) in
          (Some c, p_discount m * (sum_payoff / of_u64 n_paths))
  end.

(** *** Lookback options (lookback.c) *)

(** The scan for the running minimum and maximum over the vertices
    [path[1..num_steps]], started from [path[0]]. *)
Definition lookback_min (path : list D) (nsteps : Z) : D :=
  fold_left (fun path_min x => if x <? path_min then x else path_min)
            (firstn (Z.to_nat nsteps) (tl path)) (nth 0 path d0).

Definition lookback_max (path : list D) (nsteps : Z) : D :=
  fold_left (fun path_max x => if x >? path_max then x else path_max)
            (firstn (Z.to_nat nsteps) (tl path)) (nth 0 path d0).

(** The payoff of one path, after the scan. *)
Definition lookback_path_payoff (path : list D) (strike : D) (nsteps : Z)
           (strike_type : mco_lookback_strike)
           (option_type : mco_option_type) : D :=
  let path_min := lookback_min path nsteps in
  let path_max := lookback_max path nsteps in
  let terminal := nth (Z.to_nat nsteps) path d0 in
  match strike_type with
  | MCO_LOOKBACK_FLOATING =>
      match option_type with
      | MCO_CALL => terminal - path_min
      | MCO_PUT => path_max - terminal
      end
  | MCO_LOOKBACK_FIXED =>
      match option_type with
      | MCO_CALL => d_fmax (path_max - strike) d0
      | MCO_PUT => d_fmax (strike - path_min) d0
      end
  end.

Definition lookback_payoff (m : mco_gbm_path D) (strike : D) (nsteps : Z)
           (strike_type : mco_lookback_strike)
           (option_type : mco_option_type) (r : mco_rng) : mco_rng * D :=
  let '(r', path) := mco_gbm_simulate_path m r in
  (r', lookback_path_payoff path strike nsteps strike_type option_type).

Definition mco_price_lookback (h : host) (ctx : option (mco_ctx D))
           (spot strike rate volatility time : D) (nsteps : Z)
           (strike_type : mco_lookback_strike)
           (option_type : mco_option_type) : option (mco_ctx D) * D :=
  match ctx with
  | None => (None, d0)
  | Some c =>
      if (nsteps =? 0)%Z then (Some c, d0)
      else
        let n_paths := num_simulations c in
        if negb (malloc_ok h (wrap64 ((nsteps + 1) * sizeof_double)))
        then (Some (set_last_error c MCO_ERR_NOMEM), d0)
        else
          let m := mco_gbm_path_init spot rate volatility time nsteps in
          let '(_, sum_payoff) :=
            mc_sum (lookback_payoff m strike nsteps strike_type option_type)
                   n_paths (rng c) in
          (Some c, p_discount m * (sum_payoff / of_u64 n_paths))
  end.

End Instruments.

(** ** Least-squares Monte Carlo (lsm.h, lsm.c, american.c) *)

Definition MCO_LSM_NUM_BASIS : nat := 3.
Definition MCO_DEFAULT_AMERICAN_STEPS : Z := 52.

Section LSM.
Context {D : Type} {AD : Arith D} {LD : Libm D}.
Local Open Scope dbl_scope.

Definition vget (v : list D) (i : nat) : D := nth i v d0.

Definition mget (m : list (list D)) (i j : nat) : D :=
  nth j (nth i m []) d0.

Definition mupd (m : list (list D)) (i j : nat) (f : D -> D)
  : list (list D) :=
  list_update m i (fun row => list_update row j f).

Definition mco_lsm_basis (x : D) : list D :=
  [d1; d1 - x; d1 - d2 * x + d_half * x * x].

(** The contribution of one sample to [A'A] and [A'b]. *)
Definition regress_accumulate (n_basis : nat)
           (st : list (list D) * list D) (sample : list D * D)
  : list (list D) * list D :=
  let '(row, bi) := sample in
  fold_left
    (fun (st : list (list D) * list D) j =>
       let Atb := list_update (snd st) j (fun v => v + vget row j * bi) in
       let AtA :=
         fold_left
           (fun AtA k => mupd AtA j k (fun v => v + vget row j * vget row k))
           (seq 0 n_basis) (fst st) in
       (AtA, Atb))
    (seq 0 n_basis) st.

(** The pivot search of one column: the row whose entry is largest in
    absolute value among the rows from [col] down. *)
Definition find_pivot (aug : list (list D)) (n_basis col : nat) : nat :=
  fst (fold_left
         (fun (st : nat * D) row =>
            if d_fabs (mget aug row col) >? snd st
            then (row, d_fabs (mget aug row col))
            else st)
         (seq (col + 1) (n_basis - (col + 1)))
         (col, d_fabs (mget aug col col))).

Definition swap_rows (aug : list (list D)) (i j : nat) : list (list D) :=
  let ri := nth i aug [] in
  let rj := nth j aug [] in
  list_update (list_update aug i (fun _ => rj)) j (fun _ => ri).

(** Subtract from row [row] the multiple of row [col] that clears its
    entry in column [col]. *)
Definition eliminate_row (n_basis col : nat) (aug : list (list D))
           (row : nat) : list (list D) :=
  let factor := mget aug row col / mget aug col col in
  fold_left
    (fun aug j => mupd aug row j (fun v => v - factor * mget aug col j))
    (seq col (n_basis + 1 - col)) aug.

(** One column of the forward elimination; [None] when the pivot is
    below the singularity threshold. *)
Definition eliminate_col (n_basis : nat) (aug : option (list (list D)))
           (col : nat) : option (list (list D)) :=
  match aug with
  | None => None
  | Some aug =>
      let max_row := find_pivot aug n_basis col in
      let aug :=
        if Nat.eqb max_row col then aug else swap_rows aug col max_row in
      if d_fabs (mget aug col col) <? d_1em12 then None
      else Some (fold_left (eliminate_row n_basis col)
                           (seq (col + 1) (n_basis - (col + 1))) aug)
  end.

(** Back substitution, from the last row up. *)
Definition back_substitute (n_basis : nat) (aug : list (list D))
  : list D :=
  fold_left
    (fun coeffs i =>
       let c := mget aug i n_basis in
       let c :=
         fold_left (fun c j => c - mget aug i j * vget coeffs j)
                   (seq (i + 1) (n_basis - (i + 1))) c in
       list_update coeffs i (fun _ => c / mget aug i i))
    (rev (seq 0 n_basis)) (repeat d0 n_basis).

(** [mco_lsm_regress]: the return code and the coefficients. *)
Definition mco_lsm_regress (A : list (list D)) (b : list D)
           (n_basis : nat) : Z * list D :=
  let '(AtA, Atb) :=
    fold_left (regress_accumulate n_basis) (combine A b)
              (repeat (repeat d0 n_basis) n_basis, repeat d0 n_basis) in
  let aug :=
    map (fun i => firstn n_basis (nth i AtA []) ++ [vget Atb i])
        (seq 0 n_basis) in
  match fold_left (eliminate_col n_basis) (seq 0 n_basis) (Some aug) with
  | None => ((-1)%Z, repeat d0 n_basis)
  | Some aug => (0%Z, back_substitute n_basis aug)
  end.

(** Step 1: all paths, in simulation order. *)
Definition lsm_paths (m : mco_gbm_path D) (n_paths : Z) (r : mco_rng)
  : list (list D) :=
  snd (Nat.iter (Z.to_nat n_paths)
                (fun st : mco_rng * list (list D) =>
                   let '(r', path) := mco_gbm_simulate_path m (fst st) in
                   (r', snd st ++ [path]))
                (r, [])).

(** The exercise decision for one in-the-money path [i] at [step]. *)
Definition lsm_exercise (paths : list (list D)) (strike : D)
           (type : mco_option_type) (step : nat) (coeffs : list D)
           (st : list D * list Z) (i : nat) : list D * list Z :=
  let s_t := mget paths i step in
  let exercise_value := mco_payoff s_t strike type in
  let x := s_t / strike in
  let basis := mco_lsm_basis x in
  let continuation :=
    fold_left (fun acc k => acc + vget coeffs k * vget basis k)
              (seq 0 MCO_LSM_NUM_BASIS) d0 in
  if exercise_value >? continuation
  then (list_update (fst st) i (fun _ => exercise_value),
        list_update (snd st) i (fun _ => Z.of_nat step))
  else st.

(** One turn of the backward induction, at exercise date [step]; the
    state is the cash-flow vector and the exercise times. *)
Definition lsm_step (paths : list (list D)) (strike df : D)
           (type : mco_option_type) (st : list D * list Z) (step : nat)
  : list D * list Z :=
  let cashflow := map (fun c => c * df) (fst st) in
  let itm_indices :=
    filter (fun i => mco_payoff (mget paths i step) strike type >? d0)
           (seq 0 (length paths)) in
  let A :=
    map (fun i => mco_lsm_basis (mget paths i step / strike)) itm_indices in
  let Y := map (fun i => vget cashflow i) itm_indices in
  if (length itm_indices <? MCO_LSM_NUM_BASIS)%nat
  then (cashflow, snd st)
  else
    let '(rc, coeffs) := mco_lsm_regress A Y MCO_LSM_NUM_BASIS in
    if negb (rc =? 0)%Z then (cashflow, snd st)
    else fold_left (lsm_exercise paths strike type step coeffs)
                   itm_indices (cashflow, snd st).

(** Steps 2 and 3: terminal payoffs, then the dates
    [num_steps - 1, ..., 1]. *)
Definition lsm_backward (paths : list (list D)) (strike df : D)
           (type : mco_option_type) (nsteps : nat) : list D * list Z :=
  fold_left (lsm_step paths strike df type)
            (rev (seq 1 (nsteps - 1)))
            (map (fun path => mco_payoff (vget path nsteps) strike type)
                 paths,
             map (fun _ => Z.of_nat nsteps) paths).

(** Step 4, first half: the cash flows after the last discount. *)
Definition lsm_cashflows (paths : list (list D)) (strike df : D)
           (type : mco_option_type) (nsteps : nat) : list D :=
  map (fun c => c * df) (fst (lsm_backward paths strike df type nsteps)).

Definition lsm_exercise_times (paths : list (list D)) (strike df : D)
           (type : mco_option_type) (nsteps : nat) : list Z :=
  snd (lsm_backward paths strike df type nsteps).

Definition mco_lsm_american (h : host) (ctx : option (mco_ctx D))
           (spot strike rate volatility time_to_maturity : D)
           (nsteps : Z) (type : mco_option_type)
  : option (mco_ctx D) * D :=
  match ctx with
  | None => (None, d0)
  | Some c =>
      if (nsteps =? 0)%Z then (Some c, d0)
      else
        let n_paths := num_simulations c in
        let dt := time_to_maturity / of_u64 nsteps in
        let df := d_exp (- rate * dt) in
        if negb (malloc_ok h (wrap64 (n_paths * (nsteps + 1) * sizeof_double))
                 && malloc_ok h (n_paths * sizeof_double)
                 && malloc_ok h (wrap64 (n_paths * sizeof_size_t)))
        then (Some (set_last_error c MCO_ERR_NOMEM), d0)
        else
          let m :=
            mco_gbm_path_init spot rate volatility time_to_maturity
                              nsteps in
          let paths := lsm_paths m n_paths (rng c) in
          if negb (malloc_ok h
                     (wrap64 (n_paths * Z.of_nat MCO_LSM_NUM_BASIS
                              * sizeof_double))
                   && malloc_ok h (wrap64 (n_paths * sizeof_double))
                   && malloc_ok h (wrap64 (n_paths * sizeof_uint64_t)))
          then (Some (set_last_error c MCO_ERR_NOMEM), d0)
          else
            let cashflow :=
              lsm_cashflows paths strike df type (Z.to_nat nsteps) in
            let sum := fold_left (fun sum c => sum + c) cashflow d0 in
            (Some c, sum / of_u64 n_paths)
  end.

Definition mco_price_american (h : host) (ctx : option (mco_ctx D))
           (spot strike rate volatility time_to_maturity : D)
           (nsteps : Z) (type : mco_option_type)
  : option (mco_ctx D) * D :=
  match ctx with
  | None => (None, d0)
  | Some c =>
      if input_rejected spot strike volatility time_to_maturity
      then (Some (set_last_error c MCO_ERR_INVALID_ARG), d0)
      else
        let nsteps :=
          if (nsteps =? 0)%Z then MCO_DEFAULT_AMERICAN_STEPS else nsteps in
        mco_lsm_american h ctx spot strike rate volatility
                         time_to_maturity nsteps type
  end.

End LSM.

(** ** Control-variate accumulator
    (internal/variance_reduction/control_variates.h) *)

Record mco_cv_stats (D : Type) : Type := mk_cv {
  sum_x : D;
  sum_z : D;
  sum_xx : D;
  sum_zz : D;
  sum_xz : D;
  ez : D;
  cv_n : Z
}.

Arguments mk_cv {D}.
Arguments sum_x {D}.
Arguments sum_z {D}.
Arguments sum_xx {D}.
Arguments sum_zz {D}.
Arguments sum_xz {D}.
Arguments ez {D}.
Arguments cv_n {D}.

Section ControlVariates.
Context {D : Type} {AD : Arith D}.
Local Open Scope dbl_scope.

Definition mco_cv_init (e : D) : mco_cv_stats D :=
  mk_cv d0 d0 d0 d0 d0 e 0.

Definition mco_cv_add (stats : mco_cv_stats D) (x z : D)
  : mco_cv_stats D :=
  mk_cv (sum_x stats + x)
        (sum_z stats + z)
        (sum_xx stats + x * x)
        (sum_zz stats + z * z)
        (sum_xz stats + x * z)
        (ez stats)
        (wrap64 (cv_n stats + 1)).

(** The sample variance of the control as [mco_cv_estimate] computes
    it. *)
Definition cv_var_z (stats : mco_cv_stats D) : D :=
  let n := of_u64 (cv_n stats) in
  let mean_z := sum_z stats / n in
  sum_zz stats / n - mean_z * mean_z.

Definition mco_cv_estimate (stats : mco_cv_stats D) : D :=
  if (cv_n stats =? 0)%Z then d0
  else
    let n := of_u64 (cv_n stats) in
    let mean_x := sum_x stats / n in
    let mean_z := sum_z stats / n in
    let var_z := sum_zz stats / n - mean_z * mean_z in
    if var_z <? d_1em12 then mean_x
    else
      let cov_xz := sum_xz stats / n - mean_x * mean_z in
      let c := cov_xz / var_z in
      mean_x - c * (mean_z - ez stats).

(** The accumulator after [mco_cv_init] and one [mco_cv_add] per sample
    pair, in order. *)
Definition cv_accumulate (e : D) (samples : list (D * D))
  : mco_cv_stats D :=
  fold_left (fun stats xz => mco_cv_add stats (fst xz) (snd xz))
            samples (mco_cv_init e).

End ControlVariates.

(** ** Sobol sequence (sobol.h, sobol.c) *)

Definition MCO_SOBOL_MAX_DIM : Z := 1024.
Definition MCO_SOBOL_BITS : Z := 32.

Record mco_sobol : Type := mk_sobol {
  sb_dim : Z;
  sb_count : Z;
  sb_x : list Z;
  sb_v : list (list Z)
}.

(** The table of primitive polynomials, as (degree, coefficients) per
    dimension. *)
Definition sobol_poly : list Z :=
  [1; 0;  2; 1;  3; 1;  3; 2;  4; 1;  4; 4;  5; 2;  5; 4;  5; 7;  5; 11;
   5; 13;  5; 14;  6; 1;  6; 13;  6; 16;  6; 19;  6; 22;  6; 25;  7; 1;
   7; 4;  7; 7;  7; 8;  7; 14;  7; 19;  7; 21;  7; 28;  7; 31;  7; 32;
   7; 37;  7; 41;  7; 42;  7; 50;  7; 55;  7; 56;  7; 59;  7; 62;  8; 14;
   8; 21;  8; 22;  8; 38].

(** The initial direction numbers; C pads each row of [sobol_m[][10]] with
    zeros. *)
Definition sobol_m : list (list Z) :=
  [[1]; [1; 1]; [1; 3; 1]; [1; 3; 3]; [1; 1; 1; 1]; [1; 1; 3; 3];
   [1; 3; 5; 13; 7]; [1; 1; 5; 5; 21]; [1; 3; 1; 15; 21]; [1; 3; 7; 5; 27];
   [1; 1; 5; 11; 19]; [1; 3; 5; 1; 1]; [1; 1; 1; 3; 29; 15];
   [1; 1; 3; 7; 7; 49]; [1; 1; 1; 9; 19; 21]; [1; 1; 1; 13; 21; 55];
   [1; 1; 7; 5; 7; 11]; [1; 1; 7; 7; 31; 17]; [1; 3; 7; 13; 1; 5; 49];
   [1; 1; 5; 3; 17; 57; 97]; [1; 1; 7; 1; 7; 33; 73];
   [1; 3; 3; 9; 23; 47; 97]; [1; 3; 7; 5; 5; 27; 39];
   [1; 3; 1; 3; 21; 3; 7]; [1; 1; 5; 11; 29; 17; 117];
   [1; 1; 3; 15; 15; 49; 125]; [1; 3; 1; 11; 19; 7; 3];
   [1; 1; 7; 7; 25; 5; 85]; [1; 1; 7; 13; 29; 51; 107];
   [1; 3; 5; 13; 31; 55; 89]; [1; 1; 1; 5; 11; 51; 69];
   [1; 1; 3; 7; 17; 39; 127]; [1; 1; 1; 9; 1; 33; 83];
   [1; 3; 5; 7; 19; 29; 73]; [1; 3; 5; 5; 1; 37; 101];
   [1; 3; 3; 11; 29; 33; 93]; [1; 3; 1; 3; 25; 29; 127; 151];
   [1; 1; 7; 11; 5; 5; 23; 69]; [1; 3; 3; 1; 31; 51; 95; 243];
   [1; 3; 3; 15; 17; 41; 83; 247]].

Definition zget (l : list Z) (i : nat) : Z := nth i l 0.

(** The direction numbers of dimension [d] (a row of 32 words). *)
Definition sobol_direction_row (d : nat) : list Z :=
  let bits := Z.to_nat MCO_SOBOL_BITS in
  let zero_row := repeat 0 bits in
  if Nat.eqb d 0 then
    fold_left
      (fun row k =>
         list_update row k
           (fun _ => wrap32 (Z.shiftl 1 (MCO_SOBOL_BITS - 1 - Z.of_nat k))))
      (seq 0 bits) zero_row
  else if Nat.ltb d 40 then
    let deg := Z.to_nat (zget sobol_poly (d * 2)) in
    let poly := zget sobol_poly (d * 2 + 1) in
    let row :=
      fold_left
        (fun row k =>
           list_update row k
             (fun _ => wrap32 (Z.shiftl (zget (nth d sobol_m []) k)
                                        (MCO_SOBOL_BITS - 1 - Z.of_nat k))))
        (seq 0 (Nat.min deg 10)) zero_row in
    fold_left
      (fun row k =>
         let v_k := zget row (k - deg) in
         let v_k := Z.lxor v_k (Z.shiftr (zget row (k - deg)) (Z.of_nat deg)) in
         let v_k :=
           fold_left
             (fun v_k j =>
                if negb (Z.land poly (Z.shiftl 1 (Z.of_nat (deg - 1 - j))) =? 0)
                then Z.lxor v_k (zget row (k - j))
                else v_k)
             (seq 1 (deg - 1)) v_k in
         list_update row k (fun _ => v_k))
      (seq deg (bits - deg)) row
  else
    fold_left
      (fun row k =>
         let sh := MCO_SOBOL_BITS - 1 - Z.of_nat k in
         let w :=
           wrap32 (Z.shiftl
                     (Z.lxor (wrap32 (Z.of_nat d * 2654435761))
                             (wrap32 (Z.of_nat k * 1597334677)))
                     sh) in
         list_update row k (fun _ => Z.lor w (wrap32 (Z.shiftl 1 sh))))
      (seq 0 bits) zero_row.

(** The state [mco_sobol_init] builds for [dim] dimensions: everything
    zeroed, then the direction numbers of the first [dim] rows. *)
Definition sobol_initial_state (dim : Z) : mco_sobol :=
  let max_dim := Z.to_nat MCO_SOBOL_MAX_DIM in
  let bits := Z.to_nat MCO_SOBOL_BITS in
  mk_sobol dim 0 (repeat 0 max_dim)
    (map (fun d => if Nat.ltb d (Z.to_nat dim)
                   then sobol_direction_row d
                   else repeat 0 bits)
         (seq 0 max_dim)).

(** [mco_sobol_init]: the return code and the state the pointer leads to
    afterwards.  A null [sobol] is [None]; [dim] is a [uint32_t], so the
    argument is taken modulo [2^32]; a refused call leaves the state as it
    was. *)
Definition mco_sobol_init (sobol : option mco_sobol) (dim : Z)
  : Z * option mco_sobol :=
  let dim := wrap32 dim in
  match sobol with
  | None => (-1, None)
  | Some s =>
      if (dim =? 0) || (MCO_SOBOL_MAX_DIM <? dim) then (-1, Some s)
      else (0, Some (sobol_initial_state dim))
  end.

(** The loop [while ((n & 1) == 1) { n >>= 1; c++; }] follows the binary
    digits of [n] from the lowest one. *)
Fixpoint rightmost_zero_pos (p : positive) : Z :=
  match p with
  | xI q => 1 + rightmost_zero_pos q
  | xO _ => 0
  | xH => 1
  end.

Definition rightmost_zero (n : Z) : Z :=
  match n with
  | Zpos p => rightmost_zero_pos p
  | _ => 0
  end.

(** [sobol->x[d] ^= sobol->v[d][c]]: [None] when an index leaves its
    array, where C gives the access no meaning. *)
Definition sobol_xor_dim (v : list (list Z)) (c : Z) (x : list Z) (d : nat)
  : option (list Z * Z) :=
  match nth_error v d, nth_error x d with
  | Some row, Some xd =>
      if c <? 0 then None
      else
        match nth_error row (Z.to_nat c) with
        | Some vdc =>
            let xd' := Z.lxor xd vdc in
            Some (list_update x d (fun _ => xd'), xd')
        | None => None
        end
  | _, _ => None
  end.

(** The body of the loop of [mco_sobol_skip]. *)
Definition sobol_skip_body (s : mco_sobol) : option mco_sobol :=
  let c := rightmost_zero (sb_count s) in
  match
    fold_left
      (fun (x : option (list Z)) d =>
         match x with
         | None => None
         | Some x => option_map fst (sobol_xor_dim (sb_v s) c x d)
         end)
      (seq 0 (Z.to_nat (sb_dim s))) (Some (sb_x s))
  with
  | None => None
  | Some x' =>
      Some (mk_sobol (sb_dim s) (wrap32 (sb_count s + 1)) x' (sb_v s))
  end.

Fixpoint sobol_skip_loop (n : nat) (s : mco_sobol) : option mco_sobol :=
  match n with
  | O => Some s
  | S n' =>
      match sobol_skip_body s with
      | Some s' => sobol_skip_loop n' s'
      | None => None
      end
  end.

Definition mco_sobol_skip (s : mco_sobol) (n : Z) : option mco_sobol :=
  sobol_skip_loop (Z.to_nat n) s.

Definition mco_sobol_reset (s : mco_sobol) : mco_sobol :=
  mk_sobol (sb_dim s) 0
           (fold_left (fun x d => list_update x d (fun _ => 0))
                      (seq 0 (Z.to_nat (sb_dim s))) (sb_x s))
           (sb_v s).

Section SobolPoints.
Context {D : Type} {AD : Arith D}.
Local Open Scope dbl_scope.

(** [mco_sobol_next]: the state after the call and the point written. *)
Definition mco_sobol_next (s : mco_sobol) : option (mco_sobol * list D) :=
  let c := rightmost_zero (sb_count s) in
  let scale := d1 / of_u64 (Z.shiftl 1 MCO_SOBOL_BITS) in
  match
    fold_left
      (fun (st : option (list Z * list D)) d =>
         match st with
         | None => None
         | Some (x, point) =>
             match sobol_xor_dim (sb_v s) c x d with
             | Some (x', xd') => Some (x', point ++ [of_u64 xd' * scale])
             | None => None
             end
         end)
      (seq 0 (Z.to_nat (sb_dim s))) (Some (sb_x s, []))
  with
  | None => None
  | Some (x', point) =>
      Some (mk_sobol (sb_dim s) (wrap32 (sb_count s + 1)) x' (sb_v s),
            point)
  end.

(** [n] calls of [mco_sobol_next], keeping the point of the last one
    (the point buffer is overwritten by each call). *)
Fixpoint sobol_next_n (n : nat) (s : mco_sobol)
  : option (mco_sobol * list D) :=
  match n with
  | O => None
  | S O => mco_sobol_next s
  | S n' =>
      match mco_sobol_next s with
      | Some (s', _) => sobol_next_n n' s'
      | None => None
      end
  end.

End SobolPoints.

(** ** Further functions of the library *)

Section Further.
Context {D : Type} {AD : Arith D} {LD : Libm D}.
Local Open Scope dbl_scope.

(** [mco_set_sabr]: stores the four parameters and selects the SABR
    model; a null context is left alone. *)
Definition mco_set_sabr (ctx : option (mco_ctx D)) (alpha beta rho nu : D)
  : option (mco_ctx D) :=
  match ctx with
  | Some c =>
      Some (mk_ctx (num_simulations c) (num_steps c) (seed c) (num_threads c)
              (antithetic_enabled c) (control_variates_enabled c)
              (stratified_enabled c) 2
              alpha beta rho nu
              (rng c) (last_error c))
  | None => None
  end.

(** The loop of [mco_antithetic_path]: [n] further vertices of both
    paths, from one normal draw per step. *)
Fixpoint antithetic_path_from (m : mco_gbm_path D) (n : nat) (r : mco_rng)
         (cur_plus cur_minus : D) : mco_rng * list D * list D :=
  match n with
  | O => (r, [], [])
  | S n' =>
      let '(r1, z) := mco_rng_normal r in
      let nxt_plus := mco_gbm_step m cur_plus z in
      let nxt_minus := mco_gbm_step m cur_minus (- z) in
      let '(r2, rest_plus, rest_minus) :=
        antithetic_path_from m n' r1 nxt_plus nxt_minus in
      (r2, nxt_plus :: rest_plus, nxt_minus :: rest_minus)
  end.

(** The two path buffers after the call. *)
Definition mco_antithetic_path (m : mco_gbm_path D) (r : mco_rng)
  : mco_rng * list D * list D :=
  let '(r', rest_plus, rest_minus) :=
    antithetic_path_from m (Z.to_nat (p_num_steps m)) r
                         (p_spot m) (p_spot m) in
  (r', p_spot m :: rest_plus, p_spot m :: rest_minus).

End Further.

(** Two more functions of [math.h], called by the closed-form prices, and
    its constant [M_SQRT1_2]. *)
Class Libm_closed (D : Type) : Type := {
  d_erfc : D -> D;
  d_pow : D -> D -> D;
  M_SQRT1_2 : D
}.

Section Closed.
Context {D : Type} {AD : Arith D} {LD : Libm D} {LC : Libm_closed D}.
Local Open Scope dbl_scope.

(** [norm_cdf] of the Black-Scholes formulas. *)
Definition black76_norm_cdf (x : D) : D :=
  d_half * d_erfc (- x * M_SQRT1_2).

Definition mco_black_scholes_call (spot strike rate volatility time : D)
  : D :=
  if time <=? d0 then d_fmax (spot - strike) d0
  else if volatility <=? d0 then
    let df := d_exp (- rate * time) in
    d_fmax (spot - strike * df) d0
  else if strike <=? d0 then spot
  else
    let sqrt_t := d_sqrt time in
    let vol_sqrt_t := volatility * sqrt_t in
    let d1 :=
      (d_log (spot / strike)
       + (rate + d_half * volatility * volatility) * time) / vol_sqrt_t in
    let d2 := d1 - vol_sqrt_t in
    let df := d_exp (- rate * time) in
    spot * black76_norm_cdf d1 - strike * df * black76_norm_cdf d2.

(** [norm_cdf] of the closed-form barrier prices. *)
Definition barrier_norm_cdf (x : D) : D :=
  d_half * d_erfc (- x * dlit (7071067811865475 # 10000000000000000)).

(** The closed-form down-and-out call and down-and-in call call each
    other.  [fuel] bounds the depth of the calls; [None] means that the
    depth was not enough for the call to return. *)
Fixpoint mco_barrier_down_out_call (fuel : nat)
         (spot strike barrier rebate rate vol time : D) : option D :=
  match fuel with
  | O => None
  | S fuel' =>
      if spot <=? barrier then Some (rebate * d_exp (- rate * time))
      else if strike <=? barrier then
        let vanilla := mco_black_scholes_call spot strike rate vol time in
        match mco_barrier_down_in_call fuel' spot strike barrier d0
                                       rate vol time with
        | Some in_price =>
            Some (vanilla - in_price + rebate * d_exp (- rate * time))
        | None => None
        end
      else
        let sqrt_t := d_sqrt time in
        let mu := (rate - d_half * vol * vol) / (vol * vol) in
        let x1 :=
          d_log (spot / strike) / (vol * sqrt_t)
          + (d1 + mu) * vol * sqrt_t in
        let y1 :=
          d_log (barrier * barrier / (spot * strike)) / (vol * sqrt_t)
          + (d1 + mu) * vol * sqrt_t in
        let pow_term := d_pow (barrier / spot) (d2 * mu) in
        let call :=
          spot * barrier_norm_cdf x1
          - strike * d_exp (- rate * time)
            * barrier_norm_cdf (x1 - vol * sqrt_t) in
        let adjustment :=
          spot * pow_term * barrier_norm_cdf y1
          - strike * d_exp (- rate * time) * pow_term
            * barrier_norm_cdf (y1 - vol * sqrt_t) in
        Some (call - adjustment)
  end
with mco_barrier_down_in_call (fuel : nat)
         (spot strike barrier rebate rate vol time : D) : option D :=
  match fuel with
  | O => None
  | S fuel' =>
      if spot <=? barrier
      then Some (mco_black_scholes_call spot strike rate vol time)
      else
        let vanilla := mco_black_scholes_call spot strike rate vol time in
        match mco_barrier_down_out_call fuel' spot strike barrier d0
                                        rate vol time with
        | Some out => Some (vanilla - out)
        | None => None
        end
  end.

End Closed.


(** ** Two carriers for [double]

    [binary64] is IEEE 754 double precision, through the primitive floats;
    [exact] is arithmetic without rounding, on the canonical rationals. *)

(** The double nearest to an integer (round to nearest, ties to even). *)
Definition float_of_Z (z : Z) : float :=
  SF2Prim (binary_normalize prec emax z 0 false).

(** A literal is read as the correctly rounded quotient of its numerator
    and denominator; this is the literal's double whenever both are
    doubles themselves, as for every literal of [Arith]'s users here. *)
Definition float_of_Q (q : Q) : float :=
  PrimFloat.div (float_of_Z (Qnum q)) (float_of_Z (Zpos (Qden q))).

#[export] Instance binary64 : Arith float := {
  dadd := PrimFloat.add;
  dsub := PrimFloat.sub;
  dmul := PrimFloat.mul;
  ddiv := PrimFloat.div;
  dneg := PrimFloat.opp;
  dlt := PrimFloat.ltb;
  dle := PrimFloat.leb;
  of_u64 := float_of_Z;
  dlit := float_of_Q
}.

Definition Qc_ltb (a b : Qc) : bool :=
  match (a ?= b)%Qc with Lt => true | _ => false end.

Definition Qc_leb (a b : Qc) : bool :=
  match (a ?= b)%Qc with Gt => false | _ => true end.

#[export] Instance exact : Arith Qc := {
  dadd := Qcplus;
  dsub := Qcminus;
  dmul := Qcmult;
  ddiv := Qcdiv;
  dneg := Qcopp;
  dlt := Qc_ltb;
  dle := Qc_leb;
  of_u64 := fun z => Q2Qc (inject_Z z);
  dlit := Q2Qc
}.

(** A stand-in for [math.h] on the doubles, enough to run the model on
    concrete inputs: the IEEE square root and absolute value, low-order
    polynomial approximations for the rest.  The theorems about doubles
    hold for every [Libm float]; the stand-in serves the concrete
    examples only. *)
#[export] Instance binary64_libm : Libm float := {
  d_sqrt := PrimFloat.sqrt;
  d_exp := fun x => (1 + x + x * x / 2)%float;
  d_log := fun x => (x - 1)%float;
  d_cos := fun x => (1 - x * x / 2)%float;
  d_fabs := PrimFloat.abs;
  d_fmax := fun x y => if (x <? y)%float then y else x;
  M_PI := 0x1.921fb54442d18p+1%float
}.

(** A stand-in for [math.h] on the rationals, enough to run the model on
    concrete inputs: low-order polynomial approximations.  No theorem
    depends on what these functions compute. *)
#[export] Instance exact_libm : Libm Qc := {
  d_sqrt := fun x => ((1 + x) / Q2Qc 2)%Qc;
  d_exp := fun x => (1 + x + x * x / Q2Qc 2)%Qc;
  d_log := fun x => (x - 1)%Qc;
  d_cos := fun x => (1 - x * x / Q2Qc 2)%Qc;
  d_fabs := fun x => if Qc_ltb x 0%Qc then Qcopp x else x;
  d_fmax := fun x y => if Qc_ltb x y then y else x;
  M_PI := Q2Qc (355 # 113)
}.

(** ** Vocabulary of the statements *)

(** The next [k] outputs of [mco_rng_normal], in order, and the state they
    leave. *)
Fixpoint normal_draws {D} `{Arith D} `{Libm D} (k : nat) (r : mco_rng)
  : list D * mco_rng :=
  match k with
  | O => ([], r)
  | S k' =>
      let '(r1, z) := mco_rng_normal r in
      let '(zs, r2) := normal_draws k' r1 in
      (z :: zs, r2)
  end.

(** The two payoffs of an antithetic pair added to a running sum, the one
    at [+z] first. *)
Definition add_pair_payoffs {D} `{Arith D} `{Libm D} (m : mco_gbm D)
           (strike : D) (type : mco_option_type) (sum z : D) : D :=
  dadd (dadd sum (mco_payoff (mco_gbm_terminal m z) strike type))
       (mco_payoff (mco_gbm_terminal m (dneg z)) strike type).

(** Simulation index [k] belongs to the work unit [w]. *)
Definition in_unit {D} (w : mco_thread_work D) (k : Z) : Prop :=
  start_sim w <= k < end_sim w.

(** The first index of thread [i] when [N = T * q + r]: the threads before
    it hold [q] simulations each, the first [r] of them one more. *)
Definition unit_start (q r : Z) (i : nat) : Z :=
  Z.of_nat i * q + Z.min (Z.of_nat i) r.

(** The single-step discount applied [s] times to a cash flow. *)
Definition discount_steps {D} `{Arith D} (df : D) (s : nat) (c : D) : D :=
  Nat.iter s (fun c => dmul c df) c.

(** The state of the backward induction when date [k] has been handled:
    every path [i] carries an exercise date [s] between [k] and the last
    step (the last step itself, unless the path was in the money at [s]
    and its cash flow was replaced there), and its cash flow is the
    intrinsic payoff at [s], discounted once per date from [s] down to
    [k]. *)
Definition lsm_inv {D} `{Arith D} `{Libm D} (paths : list (list D))
           (strike df : D) (type : mco_option_type) (nsteps k : nat)
           (st : list D * list Z) : Prop :=
  forall i path, nth_error paths i = Some path ->
    exists s, (k <= s <= nsteps)%nat /\
      (s = nsteps \/ dlt d0 (mco_payoff (vget path s) strike type) = true) /\
      nth_error (snd st) i = Some (Z.of_nat s) /\
      nth_error (fst st) i
      = Some (discount_steps df (s - k)
                (mco_payoff (vget path s) strike type)).

(** Context [b] is context [a] with, at most, another last-error code. *)
Definition same_but_last_error {D} (a b : option (mco_ctx D)) : Prop :=
  match a, b with
  | None, None => True
  | Some x, Some y =>
      num_simulations y = num_simulations x /\
      num_steps y = num_steps x /\
      seed y = seed x /\
      num_threads y = num_threads x /\
      antithetic_enabled y = antithetic_enabled x /\
      control_variates_enabled y = control_variates_enabled x /\
      stratified_enabled y = stratified_enabled x /\
      model y = model x /\
      sabr_alpha y = sabr_alpha x /\
      sabr_beta y = sabr_beta x /\
      sabr_rho y = sabr_rho x /\
      sabr_nu y = sabr_nu x /\
      rng y = rng x
  | _, _ => False
  end.

(** A pricer, seen as a function of the context alone: it changes nothing
    but the last-error slot, and a second call on the context it leaves
    returns the same price. *)
Definition frames_context {D}
           (price : option (mco_ctx D) -> option (mco_ctx D) * D) : Prop :=
  forall ctx,
    same_but_last_error ctx (fst (price ctx)) /\
    snd (price (fst (price ctx))) = snd (price ctx).

(** A specification float that is neither NaN nor an infinity. *)
Definition sf_finite (x : spec_float) : bool :=
  match x with
  | S754_zero _ | S754_finite _ _ _ => true
  | _ => false
  end.

(** A specification float that is a zero, a positive number or plus
    infinity. *)
Definition sf_nonneg (x : spec_float) : bool :=
  match x with
  | S754_zero _ | S754_infinity false | S754_finite false _ _ => true
  | _ => false
  end.

(** The shape [mco_sobol_init] gives a Sobol state and every operation
    keeps: the arrays have their declared sizes and the dimension count
    fits. *)
Definition sobol_wf (s : mco_sobol) : Prop :=
  1 <= sb_dim s <= MCO_SOBOL_MAX_DIM /\
  length (sb_x s) = Z.to_nat MCO_SOBOL_MAX_DIM /\
  length (sb_v s) = Z.to_nat MCO_SOBOL_MAX_DIM /\
  Forall (fun row => length row = Z.to_nat MCO_SOBOL_BITS) (sb_v s).

(** [mco_sobol_skip] followed by one [mco_sobol_next]. *)
Definition sobol_skip_next {D} `{Arith D} (s : mco_sobol) (k : Z)
  : option (mco_sobol * list D) :=
  match mco_sobol_skip s k with
  | Some s' => mco_sobol_next s'
  | None => None
  end.

(** A 64-bit word. *)
Definition u64 (z : Z) : Prop := 0 <= z < 2 ^ 64.

(** The four words of an RNG state are 64-bit words. *)
Definition rng_words_ok (r : mco_rng) : Prop :=
  u64 (s0 r) /\ u64 (s1 r) /\ u64 (s2 r) /\ u64 (s3 r).

(** The state xoshiro256** never leaves. *)
Definition rng_all_zero (r : mco_rng) : Prop :=
  s0 r = 0 /\ s1 r = 0 /\ s2 r = 0 /\ s3 r = 0.

(** The state after [n] calls of [mco_rng_next]. *)
Definition rng_advance (n : nat) (r : mco_rng) : mco_rng :=
  Nat.iter n (fun r => fst (mco_rng_next r)) r.

(** A call of one of the setters of the context. *)
Inductive ctx_call (D : Type) : Type :=
| Call_set_simulations (n : Z)
| Call_set_steps (n : Z)
| Call_set_seed (sd : Z)
| Call_set_threads (n : Z)
| Call_set_antithetic (enabled : Z)
| Call_set_sabr (alpha beta rho nu : D).

Arguments Call_set_simulations {D}.
Arguments Call_set_steps {D}.
Arguments Call_set_seed {D}.
Arguments Call_set_threads {D}.
Arguments Call_set_antithetic {D}.
Arguments Call_set_sabr {D}.

(** The context after a call. *)
Definition run_ctx_call {D} `{Arith D} (ctx : option (mco_ctx D))
           (call : ctx_call D) : option (mco_ctx D) :=
  match call with
  | Call_set_simulations n => mco_set_simulations ctx n
  | Call_set_steps n => mco_set_steps ctx n
  | Call_set_seed sd => mco_set_seed ctx sd
  | Call_set_threads n => mco_set_threads ctx n
  | Call_set_antithetic e => mco_set_antithetic ctx e
  | Call_set_sabr a b r n => mco_set_sabr ctx a b r n
  end.

(** A new context after a sequence of setter calls. *)
Definition ctx_configured {D} `{Arith D} (h : host) (calls : list (ctx_call D))
  : option (mco_ctx D) :=
  fold_left run_ctx_call calls (mco_ctx_new h).

(** What every context configured by setters satisfies: the counts are
    positive, the flags have one of their values, the RNG is the one the
    stored seed gives, and no error is recorded. *)
Definition ctx_config_ok {D} (c : mco_ctx D) : Prop :=
  1 <= num_simulations c /\ 1 <= num_steps c /\ 1 <= num_threads c /\
  (antithetic_enabled c = 0 \/ antithetic_enabled c = 1) /\
  (model c = 0 \/ model c = 2) /\
  rng c = mco_rng_seed (seed c) /\
  last_error c = MCO_OK.

(** The fields a European estimator reads from the context. *)
Definition same_draw_config {D} (a b : mco_ctx D) : Prop :=
  num_simulations a = num_simulations b /\
  num_threads a = num_threads b /\
  antithetic_enabled a = antithetic_enabled b /\
  rng a = rng b.

(** The number of simulations of thread [i] when [N = T * q + r]. *)
Definition unit_count (q r : Z) (i : nat) : Z :=
  q + (if Z.of_nat i <? r then 1 else 0).

(** The sum of the payoffs at the first [count] normal draws of [r]. *)
Definition payoff_sum_of_draws {D} `{Arith D} `{Libm D} (m : mco_gbm D)
           (strike : D) (type : mco_option_type) (count : Z) (r : mco_rng)
  : D :=
  fold_left (fun sum z =>
               dadd sum (mco_payoff (mco_gbm_terminal m z) strike type))
            (fst (normal_draws (Z.to_nat count) r)) d0.

(** The unit [mco_thread_work_init] writes for thread [i] into a
    zero-filled array. *)
Definition initial_unit {D} `{Arith D} (q r : Z) (base : mco_rng) (i : nat)
  : mco_thread_work D :=
  mk_work (Nat.iter i mco_rng_jump base)
          (unit_start q r i) (unit_start q r (S i))
          d0 d0 d0 d0 d0 d0 d0 0 0.

(** The vertices that follow [cur] when the steps use the draws [zs]. *)
Fixpoint path_of_draws {D} `{Arith D} `{Libm D} (m : mco_gbm_path D)
         (cur : D) (zs : list D) : list D :=
  match zs with
  | [] => []
  | z :: zs' =>
      let nxt := mco_gbm_step m cur z in
      nxt :: path_of_draws m nxt zs'
  end.

(** The host that serves every request. *)
Definition generous_host : host :=
  {| malloc_ok := fun _ => true; pthread_create_ok := fun _ => true |}.

(* ================================================================== *)
(** * Part II: properties *)
(* ================================================================== *)

(** The generator and the wrap-around stay folded under [simpl]. *)
Arguments mco_rng_next : simpl never.
Arguments mco_rng_uniform : simpl never.
Arguments mco_rng_normal : simpl never.
Arguments mco_rng_jump : simpl never.
Arguments mco_rng_seed : simpl never.
Arguments wrap64 : simpl never.
Arguments wrap32 : simpl never.

(** ** Lists updated in place *)

Lemma list_update_length {A} (l : list A) i f :
  length (list_update l i f) = length l.
Proof.
  revert i; induction l as [|x t IH]; intros [|i]; simpl; auto.
Qed.

Lemma list_update_nth_same {A} (l : list A) i f x :
  nth_error l i = Some x ->
  nth_error (list_update l i f) i = Some (f x).
Proof.
  revert i; induction l as [|y t IH]; intros [|i]; simpl; try discriminate.
  - now intros [= ->].
  - apply IH.
Qed.

Lemma list_update_nth_other {A} (l : list A) i j f :
  i <> j -> nth_error (list_update l i f) j = nth_error l j.
Proof.
  revert i j; induction l as [|y t IH]; intros [|i] [|j] Hij; simpl;
    try congruence; auto.
Qed.

Lemma fold_left_seq_S {A} (f : A -> nat -> A) a n s :
  fold_left f (seq a (S n)) s = f (fold_left f (seq a n) s) (a + n)%nat.
Proof.
  rewrite seq_S, fold_left_app; reflexivity.
Qed.

(** ** C9: seeding never yields the all-zero state *)

(** C9. For every seed, the four words [mco_rng_seed] produces are not all
    zero. *)
Theorem mco_rng_seed_nonzero (sd : Z) :
  ~ (s0 (mco_rng_seed sd) = 0 /\ s1 (mco_rng_seed sd) = 0 /\
     s2 (mco_rng_seed sd) = 0 /\ s3 (mco_rng_seed sd) = 0).
Proof.
  unfold mco_rng_seed.
  destruct (splitmix64 sd) as [st1 w0].
  destruct (splitmix64 st1) as [st2 w1].
  destruct (splitmix64 st2) as [st3 w2].
  destruct (splitmix64 st3) as [st4 w3].
  destruct ((w0 =? 0) && (w1 =? 0) && (w2 =? 0) && (w3 =? 0)) eqn:E; simpl.
  - intros [H _]; discriminate H.
  - intros (H0 & H1 & H2 & H3); subst.
    simpl in E; discriminate E.
Qed.

(** ** C6: reads on a null context *)

(** C6 (as amended). On a null context the five getters return zero, and
    the last-error query returns the invalid-argument code. *)
Theorem null_context_reads (D : Type) :
  mco_get_simulations (D := D) None = 0 /\
  mco_get_steps (D := D) None = 0 /\
  mco_get_seed (D := D) None = 0 /\
  mco_get_threads (D := D) None = 0 /\
  mco_get_antithetic (D := D) None = 0 /\
  mco_ctx_last_error (D := D) None = MCO_ERR_INVALID_ARG.
Proof.
  repeat split.
Qed.

(** C6, as stated, fails at the last-error query: on a null context it
    does not return the zero code. *)
Lemma null_last_error_not_zero :
  mco_error_code (mco_ctx_last_error (D := float) None) <> 0.
Proof.
  simpl; discriminate.
Qed.

(** ** C1: the work units partition the simulations *)

Lemma wrap64_small z : 0 <= z < 2 ^ 64 -> wrap64 z = z.
Proof. intros; unfold wrap64; apply Z.mod_small; assumption. Qed.

Lemma unit_start_0 q r : 0 <= r -> unit_start q r 0 = 0.
Proof. unfold unit_start; simpl; lia. Qed.

Lemma unit_start_S q r n :
  unit_start q r (S n) =
  unit_start q r n + (q + (if Z.of_nat n <? r then 1 else 0)).
Proof.
  unfold unit_start. rewrite Nat2Z.inj_succ.
  destruct (Z.ltb_spec (Z.of_nat n) r); lia.
Qed.

Lemma unit_start_step q r n :
  0 <= q -> unit_start q r n <= unit_start q r (S n).
Proof.
  intros; rewrite unit_start_S. destruct (Z.of_nat n <? r); lia.
Qed.

Lemma unit_start_mono q r i j :
  0 <= q -> (i <= j)%nat -> unit_start q r i <= unit_start q r j.
Proof.
  intros Hq Hij; induction Hij; [lia|].
  etransitivity; [eassumption | now apply unit_start_step].
Qed.

Lemma unit_start_total T N :
  0 < T -> 0 <= N ->
  unit_start (N / T) (N mod T) (Z.to_nat T) = N.
Proof.
  intros HT HN. unfold unit_start. rewrite Z2Nat.id by lia.
  pose proof (Z.mod_pos_bound N T HT).
  pose proof (Z.div_mod N T). lia.
Qed.

Section ThreadWork.
Context {D : Type} {AD : Arith D}.

(** The loop of [mco_thread_work_init] after [n] turns: the running RNG
    has been jumped [n] times, the running start is [unit_start q r n], and
    the first [n] units are filled in. *)
Lemma thread_work_init_fold (q r : Z) (base : mco_rng)
      (work : list (mco_thread_work D)) (n : nat) :
  0 <= q -> 0 <= r -> (n <= length work)%nat ->
  unit_start q r n < 2 ^ 64 ->
  exists W,
    fold_left (thread_work_init_step q r) (seq 0 n) (base, 0, work)
    = (Nat.iter n mco_rng_jump base, unit_start q r n, W) /\
    length W = length work /\
    forall i, (i < n)%nat ->
      exists w, nth_error W i = Some w /\
        w_rng w = Nat.iter i mco_rng_jump base /\
        start_sim w = unit_start q r i /\
        end_sim w = unit_start q r (S i).
Proof.
  intros Hq Hr. induction n as [|n IH]; intros Hlen Hbound.
  - exists work; simpl. rewrite unit_start_0 by assumption.
    repeat split; intros; lia.
  - pose proof (unit_start_step q r n Hq) as Hstep.
    destruct IH as (W & Hfold & HlenW & Hunits); [lia | lia |].
    rewrite fold_left_seq_S, Hfold; simpl.
    assert (Hmin : 0 <= unit_start q r n).
    { rewrite <- (unit_start_0 q r Hr).
      apply unit_start_mono; [assumption | lia]. }
    assert (Hcount :
      wrap64 (q + (if Z.of_nat n <? r then 1 else 0))
      = q + (if Z.of_nat n <? r then 1 else 0)).
    { apply wrap64_small. rewrite unit_start_S in Hbound.
      destruct (Z.of_nat n <? r); lia. }
    rewrite Hcount, <- unit_start_S,
      (wrap64_small (unit_start q r (S n))) by lia.
    destruct (nth_error W n) as [wn|] eqn:En.
    2:{ apply nth_error_None in En; lia. }
    eexists; split; [reflexivity|]; split.
    + now rewrite list_update_length.
    + intros i Hi. destruct (Nat.eq_dec i n) as [->|Hne].
      * eexists; split; [apply list_update_nth_same; eassumption|].
        simpl; auto.
      * rewrite list_update_nth_other by congruence.
        apply Hunits; lia.
Qed.

(** C1. For a thread count [T >= 1], a simulation count [N] and a base RNG
    state, [mco_thread_work_init] fills [T] work units whose ranges
    [[start_sim, end_sim)] are contiguous, pairwise disjoint and cover
    exactly [[0, N)]; unit [i] holds the base state jumped [i] times. *)
Theorem thread_work_partition (work : list (mco_thread_work D))
        (T N : Z) (base : mco_rng) :
  1 <= T < 2 ^ 32 -> 0 <= N < 2 ^ 64 -> length work = Z.to_nat T ->
  let W := mco_thread_work_init work T base N in
  length W = Z.to_nat T /\
  (forall i w, nth_error W i = Some w ->
     w_rng w = Nat.iter i mco_rng_jump base /\ start_sim w <= end_sim w) /\
  (forall i w w', nth_error W i = Some w -> nth_error W (S i) = Some w' ->
     end_sim w = start_sim w') /\
  (forall k,
     0 <= k < N <-> exists i w, nth_error W i = Some w /\ in_unit w k) /\
  (forall i j w w' k, nth_error W i = Some w -> nth_error W j = Some w' ->
     in_unit w k -> in_unit w' k -> i = j).
Proof.
  intros HT HN Hlen W.
  set (q := N / T). set (r := N mod T).
  assert (Hq : 0 <= q) by (apply Z.div_pos; lia).
  assert (Hr : 0 <= r < T) by (apply Z.mod_pos_bound; lia).
  assert (Htot : unit_start q r (Z.to_nat T) = N)
    by (apply unit_start_total; lia).
  destruct (thread_work_init_fold q r base work (Z.to_nat T))
    as (W' & Hfold & HlenW & Hunits); try lia.
  assert (HW : W = W').
  { unfold W, mco_thread_work_init. fold q r. now rewrite Hfold. }
  clearbody W; subst W'.
  assert (Hget : forall i w, nth_error W i = Some w ->
            (i < Z.to_nat T)%nat /\
            w_rng w = Nat.iter i mco_rng_jump base /\
            start_sim w = unit_start q r i /\
            end_sim w = unit_start q r (S i)).
  { intros i w Hi.
    assert (i < Z.to_nat T)%nat
      by (rewrite <- Hlen, <- HlenW; apply nth_error_Some; congruence).
    destruct (Hunits i) as (w' & Hw' & ?); [assumption|].
    rewrite Hi in Hw'; injection Hw' as <-. auto. }
  split; [congruence|]. split; [|split; [|split]].
  - intros i w Hi. destruct (Hget i w Hi) as (_ & -> & -> & ->).
    split; [reflexivity | now apply unit_start_step].
  - intros i w w' Hi Hi'.
    destruct (Hget _ _ Hi) as (_ & _ & _ & ->).
    destruct (Hget _ _ Hi') as (_ & _ & -> & _). reflexivity.
  - intros k; split.
    + intros Hk.
      assert (Hex : forall n, (n <= Z.to_nat T)%nat ->
                0 <= k < unit_start q r n ->
                exists i, (i < n)%nat /\
                  unit_start q r i <= k < unit_start q r (S i)).
      { induction n as [|n IHn]; intros Hn Hkn.
        - rewrite unit_start_0 in Hkn; lia.
        - destruct (Z_lt_le_dec k (unit_start q r n)) as [Hlt|Hge].
          + destruct IHn as (i & ? & ?); [lia | lia |].
            exists i; split; [lia | assumption].
          + exists n; split; [lia | lia]. }
      destruct (Hex (Z.to_nat T)) as (i & Hi & Hik); [lia | lia |].
      destruct (Hunits i Hi) as (w & Hw & _ & Hs & He).
      exists i, w; split; [assumption|]. unfold in_unit; lia.
    + intros (i & w & Hi & Hin).
      destruct (Hget _ _ Hi) as (Hlt & _ & Hs & He).
      unfold in_unit in Hin.
      pose proof (unit_start_mono q r 0 i Hq ltac:(lia)).
      pose proof (unit_start_mono q r (S i) (Z.to_nat T) Hq ltac:(lia)).
      rewrite unit_start_0 in * by lia. lia.
  - intros i j w w' k Hi Hj Hin Hin'.
    destruct (Hget _ _ Hi) as (_ & _ & Hs & He).
    destruct (Hget _ _ Hj) as (_ & _ & Hs' & He').
    unfold in_unit in *.
    destruct (Nat.lt_trichotomy i j) as [Hlt|[Heq|Hgt]]; [|assumption|].
    + pose proof (unit_start_mono q r (S i) j Hq ltac:(lia)). lia.
    + pose proof (unit_start_mono q r (S j) i Hq ltac:(lia)). lia.
Qed.

End ThreadWork.

(** Three threads share ten simulations of a context seeded with 42. *)
Lemma thread_work_partition_witness :
  let W := mco_thread_work_init (D := float) (repeat zero_work 3) 3
                                (mco_rng_seed 42) 10 in
  map (fun w => (start_sim w, end_sim w)) W = [(0, 4); (4, 7); (7, 10)] /\
  length W = 3%nat /\
  (forall k,
     0 <= k < 10 <-> exists i w, nth_error W i = Some w /\ in_unit w k).
Proof.
  destruct (thread_work_partition (D := float) (repeat zero_work 3) 3 10
                                  (mco_rng_seed 42))
    as (H1 & _ & _ & H4 & _); [lia | lia | reflexivity |].
  split; [vm_compute; reflexivity | split; assumption].
Defined.

(** ** C4: the antithetic European estimator *)

Lemma antithetic_num_pairs_max n :
  0 <= n -> antithetic_num_pairs n = Z.max (n / 2) 1.
Proof.
  intros Hn. unfold antithetic_num_pairs.
  pose proof (Z.div_pos n 2 Hn ltac:(lia)).
  destruct (Z.eqb_spec (n / 2) 0); lia.
Qed.

Section Antithetic.
Context {D : Type} {AD : Arith D} {LD : Libm D}.

Lemma normal_draws_S (k : nat) (r : mco_rng) :
  normal_draws (D := D) (S k) r
  = (let '(r1, z) := mco_rng_normal r in
     let '(zs, r2) := normal_draws k r1 in
     (z :: zs, r2)).
Proof. reflexivity. Qed.

Lemma normal_draws_length (k : nat) (r : mco_rng) :
  length (fst (normal_draws (D := D) k r)) = k.
Proof.
  revert r; induction k as [|k IH]; intros r; [reflexivity|].
  rewrite normal_draws_S.
  destruct (mco_rng_normal r) as [r1 z].
  specialize (IH r1). destruct (normal_draws k r1); simpl in *; congruence.
Qed.

(** [k] turns of the pair loop draw [k] normals and add their [2 k]
    payoffs to the running sum. *)
Lemma antithetic_pairs_iter (m : mco_gbm D) (strike : D)
      (type : mco_option_type) (k : nat) (r : mco_rng) (sum : D) :
  Nat.iter k (antithetic_pair m strike type) (r, sum)
  = (snd (normal_draws k r),
     fold_left (add_pair_payoffs m strike type)
               (fst (normal_draws k r)) sum).
Proof.
  revert r sum; induction k as [|k IH]; intros r sum; [reflexivity|].
  rewrite Nat.iter_succ_r, normal_draws_S.
  unfold antithetic_pair at 2.
  destruct (mco_rng_normal r) as [r1 z].
  rewrite IH.
  destruct (normal_draws k r1) as [zs r2]; reflexivity.
Qed.

(** C4. For a GBM model, an RNG state, a strike, an option type and a
    requested path count [n], [mco_antithetic_european] uses
    [pairs = max (n / 2) 1] pairs: it leaves the RNG after exactly [pairs]
    normal draws, and returns the discount factor times the sum of the
    payoffs at [+Z] and [-Z] of every draw, divided by [2 * pairs]. *)
Theorem antithetic_european_estimator (m : mco_gbm D) (r : mco_rng)
        (strike : D) (type : mco_option_type) (n : Z) :
  0 <= n < 2 ^ 64 ->
  let pairs := Z.max (n / 2) 1 in
  let zs := fst (normal_draws (Z.to_nat pairs) r) in
  length zs = Z.to_nat pairs /\
  mco_antithetic_european m r strike type n
  = (snd (normal_draws (Z.to_nat pairs) r),
     dmul (g_discount m)
          (ddiv (fold_left (add_pair_payoffs m strike type) zs d0)
                (of_u64 (2 * pairs)))).
Proof.
  intros Hn pairs zs. split.
  - apply normal_draws_length.
  - unfold mco_antithetic_european, mco_antithetic_european_sum.
    rewrite antithetic_num_pairs_max by lia. fold pairs.
    rewrite antithetic_pairs_iter. fold zs.
    rewrite wrap64_small; [reflexivity|].
    assert (2 * (n / 2) <= n) by (apply Z.mul_div_le; lia). lia.
Qed.

(** A worker of the pool runs the same pair loop on its own unit: the
    unit's range gives the pair count, and the unit reports [2 * pairs]
    paths. *)
Lemma worker_european_antithetic_sum (w : mco_thread_work D) :
  let m := mco_gbm_init (w_spot w) (w_rate w) (w_volatility w)
                        (w_time_to_maturity w) in
  let pairs := antithetic_num_pairs (wrap64 (end_sim w - start_sim w)) in
  let zs := fst (normal_draws (Z.to_nat pairs) (w_rng w)) in
  let w' := worker_european_antithetic w in
  partial_sum w'
  = fold_left (add_pair_payoffs m (w_strike w)
                 (option_type_of_int (w_option_type w))) zs d0 /\
  w_rng w' = snd (normal_draws (Z.to_nat pairs) (w_rng w)) /\
  end_sim w' = wrap64 (start_sim w + 2 * pairs).
Proof.
  unfold worker_european_antithetic, mco_antithetic_european_sum.
  rewrite antithetic_pairs_iter. simpl. auto.
Qed.

End Antithetic.

(** Five requested paths on the exact carrier: two pairs. *)
Lemma antithetic_european_estimator_witness :
  let m := mco_gbm_init (D := Qc) (Q2Qc 100) (Q2Qc (1 # 20)) (Q2Qc (1 # 5))
                        (Q2Qc 1) in
  let r := mco_rng_seed 42 in
  let zs := fst (normal_draws 2 r) in
  0 <= 5 < 2 ^ 64 /\
  mco_antithetic_european m r (Q2Qc 100) MCO_CALL 5
  = (snd (normal_draws 2 r),
     dmul (g_discount m)
          (ddiv (fold_left (add_pair_payoffs m (Q2Qc 100) MCO_CALL) zs d0)
                (of_u64 4))).
Proof.
  split; [lia|].
  apply (antithetic_european_estimator
           (mco_gbm_init (D := Qc) (Q2Qc 100) (Q2Qc (1 # 20)) (Q2Qc (1 # 5))
                         (Q2Qc 1))
           (mco_rng_seed 42) (Q2Qc 100) MCO_CALL 5).
  lia.
Defined.

(** ** C3: cash flows of the least-squares backward induction *)

Section LSM_props.
Context {D : Type} {AD : Arith D} {LD : Libm D}.

Lemma lsm_paths_length (m : mco_gbm_path D) (n : Z) (r : mco_rng) :
  length (lsm_paths m n r) = Z.to_nat n.
Proof.
  unfold lsm_paths. induction (Z.to_nat n) as [|k IH]; [reflexivity|].
  rewrite Nat.iter_succ. cbv beta.
  destruct (mco_gbm_simulate_path m _) as [r' path].
  simpl. rewrite length_app, IH. simpl. lia.
Qed.

Lemma mget_nth (paths : list (list D)) i path j :
  nth_error paths i = Some path -> mget paths i j = vget path j.
Proof.
  intros H. unfold mget, vget. now rewrite (nth_error_nth _ _ _ H).
Qed.

(** Step 2 of the algorithm establishes the invariant at the last date. *)
Lemma lsm_inv_terminal (paths : list (list D)) (strike df : D)
      (type : mco_option_type) (nsteps : nat) :
  lsm_inv paths strike df type nsteps nsteps
          (map (fun path => mco_payoff (vget path nsteps) strike type) paths,
           map (fun _ => Z.of_nat nsteps) paths).
Proof.
  intros i path Hi. exists nsteps. simpl.
  rewrite !nth_error_map, Hi, Nat.sub_diag. simpl. auto.
Qed.

(** Discounting every cash flow moves the invariant one date back. *)
Lemma lsm_inv_discount (paths : list (list D)) (strike df : D)
      (type : mco_option_type) (nsteps k : nat) (st : list D * list Z) :
  lsm_inv paths strike df type nsteps (S k) st ->
  lsm_inv paths strike df type nsteps k
          (map (fun c => dmul c df) (fst st), snd st).
Proof.
  intros Hinv i path Hi.
  destruct (Hinv i path Hi) as (s & Hs & Hitm & Ht & Hc).
  exists s. simpl. rewrite nth_error_map, Hc. simpl.
  replace (s - k)%nat with (S (s - S k)) by lia.
  split; [lia|]. auto.
Qed.

(** An exercise decision on a path in the money keeps the invariant: the
    path either keeps its cash flow or takes the intrinsic payoff of the
    current date. *)
Lemma lsm_inv_exercise (paths : list (list D)) (strike df : D)
      (type : mco_option_type) (nsteps k : nat) (coeffs : list D)
      (st : list D * list Z) (i : nat) :
  (k <= nsteps)%nat ->
  dlt d0 (mco_payoff (mget paths i k) strike type) = true ->
  lsm_inv paths strike df type nsteps k st ->
  lsm_inv paths strike df type nsteps k
          (lsm_exercise paths strike type k coeffs st i).
Proof.
  intros Hk Hitm Hinv. unfold lsm_exercise.
  match goal with |- context [if ?c then _ else _] => destruct c end;
    [|assumption].
  intros j path Hj.
  destruct (Hinv j path Hj) as (s & Hs & Hs' & Ht & Hc).
  destruct (Nat.eq_dec i j) as [->|Hne].
  - exists k. simpl.
    rewrite (list_update_nth_same _ _ _ _ Ht).
    rewrite (list_update_nth_same _ _ _ _ Hc).
    rewrite (mget_nth _ _ _ _ Hj) in *. rewrite Nat.sub_diag. simpl.
    split; [lia|]. auto.
  - exists s. simpl.
    rewrite !list_update_nth_other by assumption. auto.
Qed.

Lemma lsm_inv_step (paths : list (list D)) (strike df : D)
      (type : mco_option_type) (nsteps k : nat) (st : list D * list Z) :
  (k < nsteps)%nat ->
  lsm_inv paths strike df type nsteps (S k) st ->
  lsm_inv paths strike df type nsteps k
          (lsm_step paths strike df type st k).
Proof.
  intros Hk Hinv. unfold lsm_step.
  pose proof (lsm_inv_discount _ _ _ _ _ _ _ Hinv) as Hd.
  assert (Hitm : forall i,
            In i (filter (fun i => dlt d0 (mco_payoff (mget paths i k)
                                                      strike type))
                         (seq 0 (length paths))) ->
            dlt d0 (mco_payoff (mget paths i k) strike type) = true).
  { intros i Hi. apply filter_In in Hi. tauto. }
  destruct (length _ <? MCO_LSM_NUM_BASIS)%nat; [exact Hd|].
  destruct (mco_lsm_regress _ _ _) as [rc coeffs].
  destruct (negb (rc =? 0)); [exact Hd|].
  revert Hitm Hd.
  generalize (map (fun c => dmul c df) (fst st), snd st).
  induction (filter _ _) as [|i l IH]; intros st' Hitm Hst'; simpl;
    [assumption|].
  apply IH.
  - intros j Hj. apply Hitm. now right.
  - apply lsm_inv_exercise; [lia | apply Hitm; now left | assumption].
Qed.

(** Step 3: after the dates [nsteps - 1, ..., k] the invariant holds at
    [k]. *)
Lemma lsm_inv_dates (paths : list (list D)) (strike df : D)
      (type : mco_option_type) (nsteps n k : nat) :
  (k + n = nsteps)%nat ->
  lsm_inv paths strike df type nsteps k
    (fold_left (lsm_step paths strike df type) (rev (seq k n))
       (map (fun path => mco_payoff (vget path nsteps) strike type) paths,
        map (fun _ => Z.of_nat nsteps) paths)).
Proof.
  revert k; induction n as [|n IH]; intros k Hk.
  - simpl. replace k with nsteps by lia. apply lsm_inv_terminal.
  - simpl. rewrite fold_left_app. simpl.
    apply lsm_inv_step; [lia|]. apply IH; lia.
Qed.

Lemma lsm_backward_inv (paths : list (list D)) (strike df : D)
      (type : mco_option_type) (nsteps : nat) :
  (1 <= nsteps)%nat ->
  lsm_inv paths strike df type nsteps 1
          (lsm_backward paths strike df type nsteps).
Proof.
  intros H. unfold lsm_backward. apply lsm_inv_dates. lia.
Qed.

(** C3. In [mco_lsm_american] with [nsteps >= 1] steps (allocations
    served), every path [i] has an exercise step [s] with
    [1 <= s <= nsteps] ([s = nsteps] unless the path was in the money at
    [s] and replaced there) whose final cash flow is the intrinsic payoff
    at step [s] multiplied [s] times by the single-step discount
    [exp (- r * dt)]; the price returned is the sum of these cash flows
    divided by the path count. *)
Theorem lsm_american_cashflows (h : host) (c : mco_ctx D)
        (spot strike rate volatility time_to_maturity : D)
        (nsteps : Z) (type : mco_option_type) :
  1 <= nsteps ->
  (forall n, malloc_ok h n = true) ->
  let df := d_exp (dmul (dneg rate) (ddiv time_to_maturity (of_u64 nsteps))) in
  let paths :=
    lsm_paths (mco_gbm_path_init spot rate volatility time_to_maturity nsteps)
              (num_simulations c) (rng c) in
  let cash := lsm_cashflows paths strike df type (Z.to_nat nsteps) in
  let times := lsm_exercise_times paths strike df type (Z.to_nat nsteps) in
  length paths = Z.to_nat (num_simulations c) /\
  (forall i path, nth_error paths i = Some path ->
     exists s, (1 <= s <= Z.to_nat nsteps)%nat /\
       (s = Z.to_nat nsteps \/
        dlt d0 (mco_payoff (vget path s) strike type) = true) /\
       nth_error times i = Some (Z.of_nat s) /\
       nth_error cash i
       = Some (discount_steps df s (mco_payoff (vget path s) strike type))) /\
  mco_lsm_american h (Some c) spot strike rate volatility time_to_maturity
                   nsteps type
  = (Some c,
     ddiv (fold_left dadd cash d0) (of_u64 (num_simulations c))).
Proof.
  intros Hn Hmem df paths cash times.
  split; [apply lsm_paths_length|]. split.
  - intros i path Hi.
    destruct (lsm_backward_inv paths strike df type (Z.to_nat nsteps)
                ltac:(lia) i path Hi) as (s & Hs & Hitm & Ht & Hc).
    exists s. split; [lia|]. split; [exact Hitm|]. split; [exact Ht|].
    unfold cash, lsm_cashflows. rewrite nth_error_map.
    destruct s as [|s']; [lia|].
    rewrite Nat.sub_succ, Nat.sub_0_r in Hc. rewrite Hc. reflexivity.
  - unfold mco_lsm_american.
    destruct (Z.eqb_spec nsteps 0) as [->|_]; [lia|].
    rewrite !Hmem. simpl. reflexivity.
Qed.

End LSM_props.

(** Four paths of three steps, on the exact carrier. *)
Lemma lsm_american_cashflows_witness :
  let c := mk_ctx (D := Qc) 4 252 42 1 0 0 0 0 d0 d1 d0 d0
                  (mco_rng_seed 42) MCO_OK in
  let df := d_exp (dmul (dneg (Q2Qc (1 # 20))) (ddiv (Q2Qc 1) (of_u64 3))) in
  let paths :=
    lsm_paths (mco_gbm_path_init (Q2Qc 100) (Q2Qc (1 # 20)) (Q2Qc (1 # 5))
                                 (Q2Qc 1) 3) 4 (rng c) in
  1 <= 3 /\
  (forall n, malloc_ok generous_host n = true) /\
  mco_lsm_american generous_host (Some c) (Q2Qc 100) (Q2Qc 100)
                   (Q2Qc (1 # 20)) (Q2Qc (1 # 5)) (Q2Qc 1) 3 MCO_PUT
  = (Some c,
     ddiv (fold_left dadd (lsm_cashflows paths (Q2Qc 100) df MCO_PUT 3) d0)
          (of_u64 4)).
Proof.
  intros c df paths.
  split; [lia|]. split; [reflexivity|].
  apply (lsm_american_cashflows generous_host c (Q2Qc 100) (Q2Qc 100)
           (Q2Qc (1 # 20)) (Q2Qc (1 # 5)) (Q2Qc 1) 3 MCO_PUT);
    [lia | reflexivity].
Defined.

(** ** C10: the pricers that work on a copy of the RNG *)

Arguments mc_sum : simpl never.

(** Case analysis on the tests a pricer makes and on the result of its
    Monte Carlo loop; the second call meets the same tests and the same
    loop. *)
Ltac frame_cases :=
  repeat (simpl;
          match goal with
          | H : ?b = _ |- context [if ?b then _ else _] => rewrite H
          | |- context [if ?b then _ else _] => destruct b eqn:?
          | H : mc_sum ?p ?n ?r = _ |- context [mc_sum ?p ?n ?r] => rewrite H
          | |- context [mc_sum ?p ?n ?r] =>
              destruct (mc_sum p n r) as [? ?] eqn:?
          end);
  simpl; (split; [repeat split | reflexivity]).

Section Frame.
Context {D : Type} {AD : Arith D} {LD : Libm D}.

Lemma same_but_last_error_refl (ctx : option (mco_ctx D)) :
  same_but_last_error ctx ctx.
Proof. destruct ctx; simpl; repeat split. Qed.

Lemma same_but_last_error_set (c : mco_ctx D) (e : mco_error) :
  same_but_last_error (Some c) (Some (set_last_error c e)).
Proof. simpl; repeat split. Qed.

Lemma mco_price_digital_frame
      (spot strike payout rate volatility time : D)
      (digital_type : mco_digital_type) (option_type : mco_option_type) :
  frames_context
    (fun ctx => mco_price_digital ctx spot strike payout rate volatility time
                                  digital_type option_type).
Proof.
  intros [c|]; [|split; reflexivity].
  unfold mco_price_digital. frame_cases.
Qed.

Lemma mco_price_barrier_frame (h : host)
      (spot strike barrier rebate rate volatility time : D) (nsteps : Z)
      (barrier_type : mco_barrier_style) (option_type : mco_option_type) :
  frames_context
    (fun ctx => mco_price_barrier h ctx spot strike barrier rebate rate
                                  volatility time nsteps barrier_type
                                  option_type).
Proof.
  intros [c|]; [|split; reflexivity].
  unfold mco_price_barrier. frame_cases.
Qed.

Lemma mco_price_asian_frame (h : host)
      (spot strike rate volatility time_to_maturity : D) (num_obs : Z)
      (avg_type : mco_asian_type) (strike_type : mco_asian_strike)
      (option_type : mco_option_type) :
  frames_context
    (fun ctx => mco_price_asian h ctx spot strike rate volatility
                                time_to_maturity num_obs avg_type strike_type
                                option_type).
Proof.
  intros [c|]; [|split; reflexivity].
  unfold mco_price_asian. frame_cases.
Qed.

Lemma mco_price_lookback_frame (h : host)
      (spot strike rate volatility time : D) (nsteps : Z)
      (strike_type : mco_lookback_strike) (option_type : mco_option_type) :
  frames_context
    (fun ctx => mco_price_lookback h ctx spot strike rate volatility time
                                   nsteps strike_type option_type).
Proof.
  intros [c|]; [|split; reflexivity].
  unfold mco_price_lookback. frame_cases.
Qed.

Lemma mco_lsm_american_frame (h : host)
      (spot strike rate volatility time_to_maturity : D) (nsteps : Z)
      (type : mco_option_type) :
  frames_context
    (fun ctx => mco_lsm_american h ctx spot strike rate volatility
                                 time_to_maturity nsteps type).
Proof.
  intros [c|]; [|split; reflexivity].
  unfold mco_lsm_american. frame_cases.
Qed.

(** C10. [mco_price_digital], [mco_price_barrier], [mco_price_asian],
    [mco_price_lookback] and [mco_lsm_american] leave every field of the
    context but the last-error slot as it was (the master RNG among them),
    and a second call with the same arguments on the context they leave
    returns the same price. *)
Theorem pricers_frame_context :
  (forall spot strike payout rate volatility time digital_type option_type,
     frames_context
       (fun ctx : option (mco_ctx D) =>
          mco_price_digital ctx spot strike payout rate volatility time
                            digital_type option_type)) /\
  (forall h spot strike barrier rebate rate volatility time nsteps
          barrier_type option_type,
     frames_context
       (fun ctx : option (mco_ctx D) =>
          mco_price_barrier h ctx spot strike barrier rebate rate volatility
                            time nsteps barrier_type option_type)) /\
  (forall h spot strike rate volatility time_to_maturity num_obs avg_type
          strike_type option_type,
     frames_context
       (fun ctx : option (mco_ctx D) =>
          mco_price_asian h ctx spot strike rate volatility time_to_maturity
                          num_obs avg_type strike_type option_type)) /\
  (forall h spot strike rate volatility time nsteps strike_type option_type,
     frames_context
       (fun ctx : option (mco_ctx D) =>
          mco_price_lookback h ctx spot strike rate volatility time nsteps
                             strike_type option_type)) /\
  (forall h spot strike rate volatility time_to_maturity nsteps type,
     frames_context
       (fun ctx : option (mco_ctx D) =>
          mco_lsm_american h ctx spot strike rate volatility time_to_maturity
                           nsteps type)).
Proof.
  split; [|split; [|split; [|split]]]; intros.
  - apply mco_price_digital_frame.
  - apply mco_price_barrier_frame.
  - apply mco_price_asian_frame.
  - apply mco_price_lookback_frame.
  - apply mco_lsm_american_frame.
Qed.

End Frame.

(** ** C2: rejected inputs *)

Section Validation.
Context {D : Type} {AD : Arith D} {LD : Libm D}.

Lemma input_rejected_true (spot strike volatility time_to_maturity : D) :
  dle spot d0 = true \/ dle strike d0 = true \/
  dlt volatility d0 = true \/ dlt time_to_maturity d0 = true ->
  input_rejected spot strike volatility time_to_maturity = true.
Proof.
  unfold input_rejected. intros [H|[H|[H|H]]]; rewrite H;
    rewrite ?orb_true_r; reflexivity.
Qed.

(** The context a pricer without argument checks leaves behind: the one
    it was given, or that one with the out-of-memory code. *)
Lemma mco_price_digital_ctx (c : mco_ctx D)
      (spot strike payout rate volatility time : D)
      (digital_type : mco_digital_type) (option_type : mco_option_type) :
  fst (mco_price_digital (Some c) spot strike payout rate volatility time
                         digital_type option_type) = Some c.
Proof.
  unfold mco_price_digital. destruct (mc_sum _ _ _). reflexivity.
Qed.

Lemma mco_price_barrier_ctx (h : host) (c : mco_ctx D)
      (spot strike barrier rebate rate volatility time : D) (nsteps : Z)
      (barrier_type : mco_barrier_style) (option_type : mco_option_type) :
  let c' := fst (mco_price_barrier h (Some c) spot strike barrier rebate rate
                                   volatility time nsteps barrier_type
                                   option_type) in
  c' = Some c \/ c' = Some (set_last_error c MCO_ERR_NOMEM).
Proof.
  unfold mco_price_barrier.
  destruct (nsteps =? 0); [now left|].
  destruct (malloc_ok h _); simpl; [|now right].
  destruct (mc_sum _ _ _). now left.
Qed.

Lemma mco_price_lookback_ctx (h : host) (c : mco_ctx D)
      (spot strike rate volatility time : D) (nsteps : Z)
      (strike_type : mco_lookback_strike) (option_type : mco_option_type) :
  let c' := fst (mco_price_lookback h (Some c) spot strike rate volatility
                                    time nsteps strike_type option_type) in
  c' = Some c \/ c' = Some (set_last_error c MCO_ERR_NOMEM).
Proof.
  unfold mco_price_lookback.
  destruct (nsteps =? 0); [now left|].
  destruct (malloc_ok h _); simpl; [|now right].
  destruct (mc_sum _ _ _). now left.
Qed.

(** C2 (as amended). On a non-null context and with [spot <= 0],
    [strike <= 0], [volatility < 0] or [time_to_maturity < 0], the
    European and American pricers, and the Asian pricer for a non-zero
    observation count, set the last-error slot to invalid-argument and
    return zero; the Asian pricer with a zero observation count returns
    zero before any check and leaves the context alone. *)
Theorem pricers_reject_invalid_input (h : host) (c : mco_ctx D)
        (spot strike rate volatility time_to_maturity : D) :
  dle spot d0 = true \/ dle strike d0 = true \/
  dlt volatility d0 = true \/ dlt time_to_maturity d0 = true ->
  (forall type,
     mco_price_european h (Some c) spot strike rate volatility
                        time_to_maturity type
     = (Some (set_last_error c MCO_ERR_INVALID_ARG), d0)) /\
  (forall nsteps type,
     mco_price_american h (Some c) spot strike rate volatility
                        time_to_maturity nsteps type
     = (Some (set_last_error c MCO_ERR_INVALID_ARG), d0)) /\
  (forall num_obs avg_type strike_type option_type,
     mco_price_asian h (Some c) spot strike rate volatility time_to_maturity
                     num_obs avg_type strike_type option_type
     = if num_obs =? 0 then (Some c, d0)
       else (Some (set_last_error c MCO_ERR_INVALID_ARG), d0)).
Proof.
  intros Hbad. apply input_rejected_true in Hbad.
  split; [|split]; intros.
  - unfold mco_price_european. now rewrite Hbad.
  - unfold mco_price_american. now rewrite Hbad.
  - unfold mco_price_asian. destruct (num_obs =? 0); [reflexivity|].
    now rewrite Hbad.
Qed.

End Validation.

(** A European call with a negative spot on the default context. *)
Lemma pricers_reject_invalid_input_witness :
  let c := mk_ctx (D := Qc) 100000 252 42 1 0 0 0 0 d0 d1 d0 d0
                  (mco_rng_seed 42) MCO_OK in
  dle (Q2Qc (-1)) d0 = true /\
  mco_price_european generous_host (Some c) (Q2Qc (-1)) (Q2Qc 100)
                     (Q2Qc (1 # 20)) (Q2Qc (1 # 5)) (Q2Qc 1) MCO_CALL
  = (Some (set_last_error c MCO_ERR_INVALID_ARG), d0).
Proof.
  intros c. split; [reflexivity|].
  destruct (pricers_reject_invalid_input generous_host c (Q2Qc (-1))
              (Q2Qc 100) (Q2Qc (1 # 20)) (Q2Qc (1 # 5)) (Q2Qc 1))
    as [Heuropean _]; [left; reflexivity|].
  exact (Heuropean MCO_CALL).
Defined.

(** C2, as stated, fails twice on a fresh context and a negative spot: the
    Asian pricer with a zero observation count returns before its check,
    and the digital pricer has no check; either way the last-error slot
    still holds the success code. *)
Lemma invalid_spot_not_flagged :
  let ctx := mco_ctx_new (D := Qc) generous_host in
  dle (Q2Qc (-1)) d0 = true /\
  option_map last_error
    (fst (mco_price_asian generous_host ctx (Q2Qc (-1)) (Q2Qc 100)
                          (Q2Qc (1 # 20)) (Q2Qc (1 # 5)) (Q2Qc 1) 0
                          MCO_ASIAN_ARITHMETIC MCO_ASIAN_FIXED_STRIKE
                          MCO_CALL))
  <> Some MCO_ERR_INVALID_ARG /\
  option_map last_error
    (fst (mco_price_digital ctx (Q2Qc (-1)) (Q2Qc 100) (Q2Qc 1)
                            (Q2Qc (1 # 20)) (Q2Qc (1 # 5)) (Q2Qc 1)
                            MCO_DIGITAL_CASH MCO_CALL))
  <> Some MCO_ERR_INVALID_ARG.
Proof.
  split; [reflexivity|]. split; [simpl; discriminate|].
  change (mco_ctx_new (D := Qc) generous_host)
    with (Some (mk_ctx (D := Qc) MCO_DEFAULT_SIMULATIONS MCO_DEFAULT_STEPS
                  MCO_DEFAULT_SEED MCO_DEFAULT_THREADS 0 0 0 0 d0 d1 d0 d0
                  (mco_rng_seed MCO_DEFAULT_SEED) MCO_OK)).
  rewrite mco_price_digital_ctx. simpl. discriminate.
Qed.

(** ** C8: floating-strike lookback payoffs are not negative *)

(** *** IEEE facts about binary64

    The comparisons and the subtraction of the primitive doubles, through
    their specification ([SFcompare], [SFsub]): on numbers that are
    neither NaN nor infinite, [<=] is reflexive and total, and a number
    minus one that is not greater is not negative. *)

Lemma is_finite_sf (x : float) :
  PrimFloat.is_finite x = true -> sf_finite (Prim2SF x) = true.
Proof.
  unfold PrimFloat.is_finite, Prim2SF. intros H.
  apply negb_true_iff, orb_false_iff in H. destruct H as [Hn Hi].
  rewrite Hn, Hi.
  destruct (is_zero x); [reflexivity|].
  destruct (Z.frexp x) as [r e].
  destruct (shr_fexp _ _ _ _ _) as [s e'].
  destruct (shr_m s); reflexivity.
Qed.

Lemma compare_cont_swap (p q : positive) :
  Pos.compare_cont Eq q p = CompOpp (Pos.compare_cont Eq p q).
Proof. now rewrite Pos.compare_cont_antisym. Qed.

Lemma SFcompare_antisym (a b : spec_float) (c : comparison) :
  SFcompare a b = Some c -> SFcompare b a = Some (CompOpp c).
Proof.
  destruct a as [sa|sa| |sa ma ea], b as [sb|sb| |sb mb eb]; cbn [SFcompare];
    try discriminate;
    try (destruct sa; intros [= <-]; reflexivity);
    try (destruct sb; intros [= <-]; reflexivity);
    try (intros [= <-]; reflexivity).
  - destruct sa, sb; intros [= <-]; reflexivity.
  - destruct sa, sb; intros [= <-]; try reflexivity.
    + rewrite (Z.compare_antisym ea eb).
      destruct (ea ?= eb); cbn [CompOpp]; try reflexivity.
      now rewrite (compare_cont_swap ma mb).
    + rewrite (Z.compare_antisym ea eb).
      destruct (ea ?= eb); cbn [CompOpp]; try reflexivity.
      now rewrite (compare_cont_swap ma mb).
Qed.

Lemma SF_total (a b : spec_float) :
  sf_finite a = true -> sf_finite b = true ->
  SFltb a b = false -> SFleb b a = true.
Proof.
  intros Ha Hb. unfold SFltb, SFleb.
  destruct (SFcompare a b) as [c|] eqn:E.
  - rewrite (SFcompare_antisym _ _ _ E). destruct c; cbn; congruence.
  - destruct a, b; try discriminate.
Qed.

Lemma SF_refl (a : spec_float) : sf_finite a = true -> SFleb a a = true.
Proof.
  intros Ha. apply SF_total; try assumption.
  unfold SFltb. destruct (SFcompare a a) as [c|] eqn:E; [|reflexivity].
  pose proof (SFcompare_antisym _ _ _ E) as E'. rewrite E in E'.
  destruct c; try reflexivity; discriminate.
Qed.

(** The sign of a rounded result: rounding a mantissa that is not
    negative never yields a negative number or NaN. *)

Lemma iter_pos_inv {A} (P : A -> Prop) (f : A -> A) :
  (forall x, P x -> P (f x)) ->
  forall n x, P x -> P (iter_pos f n x).
Proof.
  intros Hf; induction n as [n IH|n IH|]; intros x Hx; cbn [iter_pos]; auto.
Qed.

Lemma shr_1_nonneg (mrs : shr_record) :
  0 <= shr_m mrs -> 0 <= shr_m (shr_1 mrs).
Proof.
  destruct mrs as [m r s]; destruct m as [|[p|p|]|[p|p|]]; cbn; lia.
Qed.

Lemma shr_fexp_nonneg (m e : Z) (l : location) :
  0 <= m -> 0 <= shr_m (fst (shr_fexp prec emax m e l)).
Proof.
  intros Hm. unfold shr_fexp, shr.
  assert (H0 : 0 <= shr_m (shr_record_of_loc m l))
    by (destruct l as [|[]]; exact Hm).
  destruct (fexp prec emax (Zdigits2 m + e) - e); cbn [fst]; try exact H0.
  apply (iter_pos_inv (fun mrs => 0 <= shr_m mrs)); [|exact H0].
  apply shr_1_nonneg.
Qed.

Lemma round_nearest_even_nonneg (m : Z) (l : location) :
  0 <= m -> 0 <= round_nearest_even m l.
Proof.
  intros Hm. destruct l as [|[]]; cbn [round_nearest_even]; try lia.
  destruct (Z.even m); lia.
Qed.

Lemma binary_round_aux_nonneg (mx ex : Z) (lx : location) :
  0 <= mx -> sf_nonneg (binary_round_aux prec emax false mx ex lx) = true.
Proof.
  intros Hm. unfold binary_round_aux.
  pose proof (shr_fexp_nonneg mx ex lx Hm) as H1.
  destruct (shr_fexp prec emax mx ex lx) as [mrs' e']. cbn [fst] in H1.
  pose proof (shr_fexp_nonneg
                (round_nearest_even (shr_m mrs') (loc_of_shr_record mrs'))
                e' loc_Exact
                (round_nearest_even_nonneg _ _ H1)) as H2.
  destruct (shr_fexp prec emax _ e' loc_Exact) as [mrs'' e'']. cbn [fst] in H2.
  destruct (shr_m mrs'') as [|p|p]; [reflexivity| |lia].
  destruct (e'' <=? emax - prec); reflexivity.
Qed.

Lemma binary_normalize_nonneg (m e : Z) :
  0 <= m -> sf_nonneg (binary_normalize prec emax m e false) = true.
Proof.
  intros Hm. destruct m as [|p|p]; cbn [binary_normalize]; [reflexivity| |lia].
  unfold binary_round.
  destruct (shl_align p e _) as [mz ez].
  apply binary_round_aux_nonneg; lia.
Qed.

(** Mantissas brought to a common exponent. *)

Lemma iter_xO_pow (m d : positive) :
  Zpos (Pos.iter xO m d) = Zpos m * 2 ^ Zpos d.
Proof.
  induction d as [|d IH] using Pos.peano_ind.
  - cbn [Pos.iter]. lia.
  - rewrite Pos.iter_succ, Pos2Z.inj_xO, IH, Pos2Z.inj_succ, Z.pow_succ_r
      by lia.
    lia.
Qed.

Lemma shl_align_value (mx : positive) (ex ez : Z) :
  ez <= ex -> Zpos (fst (shl_align mx ex ez)) = Zpos mx * 2 ^ (ex - ez).
Proof.
  intros Hle. unfold shl_align.
  destruct (ez - ex) as [|d|d] eqn:E; cbn [fst]; try lia.
  - replace (ex - ez) with 0 by lia. lia.
  - rewrite iter_xO_pow. replace (ex - ez) with (Zpos d) by lia. reflexivity.
Qed.

Lemma digits2_pos_bounds (m : positive) :
  2 ^ (Zpos (digits2_pos m) - 1) <= Zpos m < 2 ^ Zpos (digits2_pos m).
Proof.
  induction m as [m IH|m IH|]; cbn [digits2_pos].
  - rewrite Pos2Z.inj_succ, Z.pow_succ_r by lia.
    replace (Z.succ (Zpos (digits2_pos m)) - 1)
      with (Z.succ (Zpos (digits2_pos m) - 1)) by lia.
    rewrite Z.pow_succ_r by lia. lia.
  - rewrite Pos2Z.inj_succ, Z.pow_succ_r by lia.
    replace (Z.succ (Zpos (digits2_pos m)) - 1)
      with (Z.succ (Zpos (digits2_pos m) - 1)) by lia.
    rewrite Z.pow_succ_r by lia. lia.
  - cbn. lia.
Qed.

(** A canonical mantissa has at most 53 bits, and exactly 53 above the
    least exponent. *)
Lemma bounded_mantissa (m : positive) (e : Z) :
  bounded prec emax m e = true ->
  -1074 <= e /\ Zpos m < 2 ^ 53 /\ (-1074 < e -> 2 ^ 52 <= Zpos m).
Proof.
  unfold bounded, canonical_mantissa, fexp, SpecFloat.emin, prec, emax.
  intros H. apply andb_true_iff in H. destruct H as [H _].
  apply Z.eqb_eq in H.
  pose proof (digits2_pos_bounds m) as [Hlo Hhi].
  set (d := Zpos (digits2_pos m)) in *.
  assert (Hd : d <= 53) by lia.
  split; [lia|]. split.
  - apply Z.lt_le_trans with (2 ^ d); [assumption|].
    apply Z.pow_le_mono_r; lia.
  - intros He. assert (d = 53) by lia. subst d.
    replace 52 with (Zpos (digits2_pos m) - 1) by lia. assumption.
Qed.

(** Of two canonical numbers of the same sign, the one with the smaller
    exponent is the smaller one in magnitude. *)
Lemma aligned_lt (ma mb : positive) (ea eb : Z) :
  bounded prec emax ma ea = true -> bounded prec emax mb eb = true ->
  eb < ea ->
  Zpos (fst (shl_align mb eb (Z.min ea eb)))
  <= Zpos (fst (shl_align ma ea (Z.min ea eb))).
Proof.
  intros Ha Hb Hlt.
  destruct (bounded_mantissa ma ea Ha) as (_ & _ & Hma).
  destruct (bounded_mantissa mb eb Hb) as (Heb & Hmb & _).
  rewrite Z.min_r by lia.
  rewrite !shl_align_value by lia.
  replace (eb - eb) with 0 by lia. rewrite Z.pow_0_r, Z.mul_1_r.
  specialize (Hma ltac:(lia)).
  assert (2 ^ 1 <= 2 ^ (ea - eb)) by (apply Z.pow_le_mono_r; lia).
  change (2 ^ 1) with 2 in *. change (2 ^ 53) with (2 ^ 52 * 2) in Hmb.
  nia.
Qed.

Lemma aligned_eq (m : positive) (e : Z) :
  Zpos (fst (shl_align m e (Z.min e e))) = Zpos m.
Proof.
  rewrite Z.min_id, shl_align_value by lia.
  replace (e - e) with 0 by lia. lia.
Qed.

(** Subtracting a number from one that is not smaller gives a zero, a
    positive number or plus infinity. *)
Lemma SFsub_nonneg (a b : spec_float) :
  valid_binary a = true -> valid_binary b = true ->
  sf_finite a = true -> sf_finite b = true ->
  SFleb b a = true -> sf_nonneg (SFsub prec emax a b) = true.
Proof.
  intros Va Vb Fa Fb Hle.
  destruct a as [sa|sa| |sa ma ea]; try discriminate;
    destruct b as [sb|sb| |sb mb eb]; try discriminate.
  - destruct sa, sb; reflexivity.
  - unfold SFleb in Hle; cbn [SFcompare] in Hle.
    destruct sb; [reflexivity | discriminate].
  - unfold SFleb in Hle; cbn [SFcompare] in Hle.
    destruct sa; [discriminate | reflexivity].
  - cbn [valid_binary] in Va, Vb. cbn [SFsub].
    apply binary_normalize_nonneg.
    unfold SFleb in Hle; cbn [SFcompare] in Hle.
    destruct sa, sb; cbn [cond_Zopp]; try discriminate; try lia.
    + destruct (Z.compare_spec eb ea) as [->|Hlt|Hgt]; try discriminate.
      * rewrite !aligned_eq.
        change (Pos.compare_cont Eq mb ma) with (mb ?= ma)%positive in Hle.
        destruct (Pos.compare_spec mb ma); try discriminate; lia.
      * pose proof (aligned_lt mb ma eb ea Vb Va Hgt) as H.
        rewrite (Z.min_comm eb ea) in H. lia.
    + destruct (Z.compare_spec eb ea) as [->|Hlt|Hgt]; try discriminate.
      * rewrite !aligned_eq.
        change (Pos.compare_cont Eq mb ma) with (mb ?= ma)%positive in Hle.
        destruct (Pos.compare_spec mb ma); try discriminate; lia.
      * pose proof (aligned_lt ma mb ea eb Va Vb Hlt) as H. lia.
Qed.

Lemma sf_nonneg_leb (x : spec_float) :
  sf_nonneg x = true -> SFleb (S754_zero false) x = true.
Proof.
  destruct x as [s|s| |s m e]; try discriminate; try reflexivity;
    destruct s; try discriminate; reflexivity.
Qed.

Lemma float_leb_refl (a : float) :
  PrimFloat.is_finite a = true -> PrimFloat.leb a a = true.
Proof.
  intros Ha. rewrite leb_spec. apply SF_refl, is_finite_sf, Ha.
Qed.

Lemma float_leb_total (a b : float) :
  PrimFloat.is_finite a = true -> PrimFloat.is_finite b = true ->
  PrimFloat.ltb a b = false -> PrimFloat.leb b a = true.
Proof.
  intros Ha Hb. rewrite ltb_spec, leb_spec.
  apply SF_total; apply is_finite_sf; assumption.
Qed.

Lemma float_sub_nonneg (a b : float) :
  PrimFloat.is_finite a = true -> PrimFloat.is_finite b = true ->
  PrimFloat.leb b a = true ->
  PrimFloat.leb PrimFloat.zero (PrimFloat.sub a b) = true.
Proof.
  intros Ha Hb Hle. rewrite leb_spec in *. rewrite sub_spec.
  change (Prim2SF PrimFloat.zero) with (S754_zero false).
  apply sf_nonneg_leb, SFsub_nonneg; try apply Prim2SF_valid;
    try (apply is_finite_sf; assumption).
  exact Hle.
Qed.

Lemma float_d0 : (d0 : float) = PrimFloat.zero.
Proof. vm_compute. reflexivity. Qed.

Section Lookback.
Context {D : Type} {AD : Arith D} {LD : Libm D}.

(** The running minimum and the running maximum are vertices of the
    path. *)
Lemma lookback_min_fold_in (l : list D) (m0 : D) :
  In (fold_left (fun path_min x => if dlt x path_min then x else path_min)
                l m0) (m0 :: l).
Proof.
  revert m0; induction l as [|x l IH]; intros m0; [now left|].
  cbn [fold_left].
  destruct (IH (if dlt x m0 then x else m0)) as [H|H].
  - rewrite <- H. destruct (dlt x m0); [right; now left | now left].
  - right; now right.
Qed.

Lemma lookback_max_fold_in (l : list D) (m0 : D) :
  In (fold_left (fun path_max x => if dlt path_max x then x else path_max)
                l m0) (m0 :: l).
Proof.
  revert m0; induction l as [|x l IH]; intros m0; [now left|].
  cbn [fold_left].
  destruct (IH (if dlt m0 x then x else m0)) as [H|H].
  - rewrite <- H. destruct (dlt m0 x); [right; now left | now left].
  - right; now right.
Qed.

Lemma gbm_path_from_length (m : mco_gbm_path D) (n : nat) (r : mco_rng)
      (cur : D) :
  length (snd (gbm_path_from m n r cur)) = n.
Proof.
  revert r cur; induction n as [|n IH]; intros r cur; [reflexivity|].
  change (gbm_path_from m (S n) r cur)
    with (let '(r1, z) := mco_rng_normal r in
          let nxt := mco_gbm_step m cur z in
          let '(r2, rest) := gbm_path_from m n r1 nxt in
          (r2, nxt :: rest)).
  destruct (mco_rng_normal r) as [r1 z]. cbv zeta.
  specialize (IH r1 (mco_gbm_step m cur z)).
  destruct (gbm_path_from m n r1 (mco_gbm_step m cur z)) as [r2 rest].
  simpl in *. congruence.
Qed.

Lemma mco_gbm_simulate_path_length (m : mco_gbm_path D) (r : mco_rng) :
  length (snd (mco_gbm_simulate_path m r))
  = S (Z.to_nat (p_num_steps m)).
Proof.
  unfold mco_gbm_simulate_path.
  pose proof (gbm_path_from_length m (Z.to_nat (p_num_steps m)) r (p_spot m)).
  destruct (gbm_path_from m _ r _); simpl in *. congruence.
Qed.

End Lookback.

(** On a path of [nsteps + 1] doubles, none of them NaN or infinite, the
    terminal value lies between the scanned minimum and maximum, which
    are finite too. *)
Lemma lookback_extrema_bracket (path : list float) (nsteps : Z) :
  length path = S (Z.to_nat nsteps) ->
  forallb PrimFloat.is_finite path = true ->
  let terminal := nth (Z.to_nat nsteps) path d0 in
  PrimFloat.is_finite terminal = true /\
  PrimFloat.is_finite (lookback_min path nsteps) = true /\
  PrimFloat.is_finite (lookback_max path nsteps) = true /\
  dle (lookback_min path nsteps) terminal = true /\
  dle terminal (lookback_max path nsteps) = true.
Proof.
  intros Hlen Hfin terminal.
  assert (Hall : forall v, In v path -> PrimFloat.is_finite v = true)
    by (apply forallb_forall; exact Hfin).
  destruct path as [|p0 rest]; [discriminate|].
  assert (Hrest : firstn (Z.to_nat nsteps) rest = rest).
  { apply firstn_all2. simpl in Hlen. lia. }
  unfold lookback_min, lookback_max.
  change (tl (p0 :: rest)) with rest.
  change (nth 0 (p0 :: rest) d0) with p0.
  rewrite Hrest.
  assert (Hmin_in := lookback_min_fold_in rest p0).
  assert (Hmax_in := lookback_max_fold_in rest p0).
  assert (Hterm : In terminal (p0 :: rest)).
  { apply nth_In. simpl in *. lia. }
  split; [now apply Hall|]. split; [now apply Hall|].
  split; [now apply Hall|].
  cbn [dle dlt binary64] in *.
  destruct (rev rest) as [|t rrest] eqn:Erev.
  - assert (rest = []) by (apply (f_equal (@rev _)) in Erev;
                           now rewrite rev_involutive in Erev).
    subst rest. cbn [fold_left].
    assert (terminal = p0).
    { unfold terminal. simpl in Hlen. injection Hlen as Hlen.
      rewrite <- Hlen. reflexivity. }
    rewrite H. split; apply float_leb_refl, Hall; now left.
  - assert (Hr : rest = rev rrest ++ [t]).
    { apply (f_equal (@rev _)) in Erev. rewrite rev_involutive in Erev.
      exact Erev. }
    assert (Ht : terminal = t).
    { unfold terminal. simpl in Hlen. injection Hlen as Hlen.
      rewrite <- Hlen, Hr. cbn [nth].
      rewrite length_app. cbn [length]. rewrite Nat.add_1_r. cbn [nth].
      rewrite app_nth2 by lia. now rewrite Nat.sub_diag. }
    rewrite Ht. rewrite Hr, !fold_left_app. cbn [fold_left].
    assert (Hft : PrimFloat.is_finite t = true).
    { apply Hall. right. rewrite Hr. apply in_or_app. right; now left. }
    assert (Hin' : forall v, In v (p0 :: rev rrest) ->
                     PrimFloat.is_finite v = true).
    { intros v [<-|Hv]; apply Hall; [now left|].
      right. rewrite Hr. apply in_or_app. now left. }
    split.
    + set (m' := fold_left _ (rev rrest) p0).
      assert (Hm' : PrimFloat.is_finite m' = true)
        by (apply Hin'; exact (lookback_min_fold_in (D := float)
                                 (rev rrest) p0)).
      destruct (PrimFloat.ltb t m') eqn:E.
      * now apply float_leb_refl.
      * now apply float_leb_total.
    + set (m' := fold_left _ (rev rrest) p0).
      assert (Hm' : PrimFloat.is_finite m' = true)
        by (apply Hin'; exact (lookback_max_fold_in (D := float)
                                 (rev rrest) p0)).
      destruct (PrimFloat.ltb m' t) eqn:E.
      * now apply float_leb_refl.
      * now apply float_leb_total.
Qed.

(** C8 (as amended). In double precision, for every [math.h], with
    [nsteps >= 1] monitoring steps: on a simulated path whose vertices
    are all finite (none is NaN or an infinity) the payoff that
    [mco_price_lookback] adds for a floating-strike lookback is not
    negative, for the call ([S(T) - min]) and for the put
    ([max - S(T)]): the scan for the minimum and the maximum includes the
    terminal vertex. *)
Theorem lookback_floating_payoff_nonneg (LD : Libm float)
        (spot strike rate volatility time : float) (nsteps : Z)
        (option_type : mco_option_type) (r : mco_rng) :
  1 <= nsteps ->
  let m := mco_gbm_path_init spot rate volatility time nsteps in
  forallb PrimFloat.is_finite (snd (mco_gbm_simulate_path m r)) = true ->
  dle d0 (snd (lookback_payoff m strike nsteps MCO_LOOKBACK_FLOATING
                               option_type r)) = true.
Proof.
  intros Hn m Hfin. unfold lookback_payoff.
  pose proof (mco_gbm_simulate_path_length m r) as Hlen.
  destruct (mco_gbm_simulate_path m r) as [r' path]. cbn [snd] in *.
  change (p_num_steps m) with nsteps in Hlen.
  destruct (lookback_extrema_bracket path nsteps Hlen Hfin)
    as (Ht & Hmin & Hmax & Hle_min & Hle_max).
  unfold lookback_path_payoff. rewrite float_d0.
  cbn [dle dsub binary64] in *.
  destruct option_type; apply float_sub_nonneg; assumption.
Qed.

(** A put on a path of three steps, in double precision. *)
Lemma lookback_floating_payoff_nonneg_witness :
  let m := mco_gbm_path_init (float_of_Z 100) (float_of_Q (1 # 20))
                             (float_of_Q (1 # 5)) (float_of_Z 1) 3 in
  1 <= 3 /\
  forallb PrimFloat.is_finite
          (snd (mco_gbm_simulate_path m (mco_rng_seed 42))) = true /\
  dle d0 (snd (lookback_payoff m (float_of_Z 100) 3 MCO_LOOKBACK_FLOATING
                               MCO_PUT (mco_rng_seed 42))) = true.
Proof.
  intros m.
  assert (Hfin : forallb PrimFloat.is_finite
                   (snd (mco_gbm_simulate_path m (mco_rng_seed 42))) = true)
    by (vm_compute; reflexivity).
  split; [lia|]. split; [exact Hfin|].
  exact (lookback_floating_payoff_nonneg binary64_libm (float_of_Z 100)
           (float_of_Z 100) (float_of_Q (1 # 20)) (float_of_Q (1 # 5))
           (float_of_Z 1) 3 MCO_PUT (mco_rng_seed 42) ltac:(lia) Hfin).
Defined.

(** C8, as stated, fails when a path overflows.  A spot of 1.7e308, a
    rate of 10 percent, no volatility, one step of one year: the step
    multiplies the spot by [exp(0.1)], which exceeds the largest double,
    so the path is [1.7e308; inf]; the running maximum and the terminal
    value are both infinite and the put payoff [max - S(T)] is
    [inf - inf], a NaN, for which [payoff >= 0] is false. *)
Lemma lookback_put_payoff_nan :
  let spot := float_of_Z (17 * 10 ^ 307) in
  let m := mco_gbm_path_init spot (float_of_Q (1 # 10)) (float_of_Z 0)
                             (float_of_Z 1) 1 in
  let payoff :=
    snd (lookback_payoff m (float_of_Z 100) 1 MCO_LOOKBACK_FLOATING MCO_PUT
                         (mco_rng_seed 42)) in
  PrimFloat.is_finite spot = true /\
  dlt d0 spot = true /\
  snd (mco_gbm_simulate_path m (mco_rng_seed 42)) = [spot; infinity] /\
  Prim2SF payoff = S754_nan /\
  dle d0 payoff = false.
Proof.
  vm_compute. repeat split; reflexivity.
Qed.

(** ** C5: the control-variate estimate *)

Section ControlVariate_props.
Context {D : Type} {AD : Arith D}.

Lemma cv_fold_count (samples : list (D * D)) (st : mco_cv_stats D) :
  0 <= cv_n st -> cv_n st + Z.of_nat (length samples) < 2 ^ 64 ->
  cv_n (fold_left (fun stats xz => mco_cv_add stats (fst xz) (snd xz))
                  samples st)
  = cv_n st + Z.of_nat (length samples).
Proof.
  revert st; induction samples as [|p l IH]; intros st H0 Hlt.
  - simpl; lia.
  - cbn [fold_left length] in *. rewrite IH; simpl.
    + rewrite wrap64_small; lia.
    + rewrite wrap64_small; lia.
    + rewrite wrap64_small; lia.
Qed.

Lemma cv_fold_ez (samples : list (D * D)) (st : mco_cv_stats D) :
  ez (fold_left (fun stats xz => mco_cv_add stats (fst xz) (snd xz))
                samples st) = ez st.
Proof.
  revert st; induction samples as [|p l IH]; intros st; [reflexivity|].
  simpl. now rewrite IH.
Qed.

(** When every pair has [x = z] the sums of [x] and of [z] are built by
    the same additions, and so are the sums of [x z] and of [z z]. *)
Lemma cv_fold_equal_pairs (samples : list (D * D)) (st : mco_cv_stats D) :
  (forall p, In p samples -> fst p = snd p) ->
  sum_x st = sum_z st -> sum_xz st = sum_zz st ->
  let st' := fold_left (fun stats xz => mco_cv_add stats (fst xz) (snd xz))
                       samples st in
  sum_x st' = sum_z st' /\ sum_xz st' = sum_zz st'.
Proof.
  revert st; induction samples as [|p l IH]; intros st Hp Hx Hxz; [auto|].
  simpl. apply IH.
  - intros q Hq. apply Hp. now right.
  - simpl. rewrite Hx, (Hp p (or_introl eq_refl)). reflexivity.
  - simpl. rewrite Hxz, (Hp p (or_introl eq_refl)). reflexivity.
Qed.

(** What [mco_cv_estimate] computes on a non-empty accumulator, in any
    arithmetic. *)
Lemma cv_estimate_structure (e : D) (samples : list (D * D)) :
  samples <> [] -> Z.of_nat (length samples) < 2 ^ 64 ->
  let stats := cv_accumulate e samples in
  let mean_x :=
    ddiv (sum_x stats) (of_u64 (Z.of_nat (length samples))) in
  let v := cv_var_z stats in
  (dlt v d_1em12 = true -> mco_cv_estimate stats = mean_x) /\
  ((forall p, In p samples -> fst p = snd p) ->
   dlt v d_1em12 = false ->
   mco_cv_estimate stats = dsub mean_x (dmul (ddiv v v) (dsub mean_x e))).
Proof.
  intros Hne Hlen stats mean_x v.
  assert (Hn : cv_n stats = Z.of_nat (length samples)).
  { unfold stats, cv_accumulate. rewrite cv_fold_count; simpl; lia. }
  assert (Hn0 : (cv_n stats =? 0) = false).
  { apply Z.eqb_neq. rewrite Hn. destruct samples; [congruence|simpl; lia]. }
  assert (He : ez stats = e) by apply cv_fold_ez.
  split.
  - intros Hv. unfold mco_cv_estimate. rewrite Hn0.
    fold (cv_var_z stats). fold v. rewrite Hv.
    unfold mean_x. now rewrite Hn.
  - intros Hp Hv.
    destruct (cv_fold_equal_pairs samples (mco_cv_init e) Hp eq_refl eq_refl)
      as [Hx Hxz].
    fold (cv_accumulate e samples) in Hx, Hxz. fold stats in Hx, Hxz.
    unfold mco_cv_estimate. rewrite Hn0.
    fold (cv_var_z stats). fold v. rewrite Hv.
    unfold v, cv_var_z, mean_x. rewrite Hxz, <- Hx, He, Hn. reflexivity.
Qed.

End ControlVariate_props.

(** On the rationals the expression of the second case collapses: the
    variance is not zero, so [v / v] is one. *)
Lemma cv_estimate_exact (e : Qc) (samples : list (Qc * Qc)) :
  samples <> [] -> Z.of_nat (length samples) < 2 ^ 64 ->
  (forall p, In p samples -> fst p = snd p) ->
  dlt (cv_var_z (cv_accumulate e samples)) d_1em12 = false ->
  mco_cv_estimate (cv_accumulate e samples) = e.
Proof.
  intros Hne Hlen Hp Hv.
  rewrite (proj2 (cv_estimate_structure e samples Hne Hlen) Hp Hv).
  set (v := cv_var_z (cv_accumulate e samples)) in *.
  set (mean := ddiv _ _).
  assert (Hv0 : v <> Q2Qc 0).
  { intros H0. rewrite H0 in Hv. discriminate Hv. }
  cbn [dsub dmul ddiv exact].
  unfold Qcdiv. rewrite Qcmult_inv_r by exact Hv0. ring.
Qed.




(** ** C7: skipping ahead in the Sobol sequence *)

Lemma rightmost_zero_pos_bound (p : positive) :
  0 <= rightmost_zero_pos p /\ 2 ^ rightmost_zero_pos p - 1 <= Zpos p.
Proof.
  induction p as [q [IH0 IH]|q _|]; cbn [rightmost_zero_pos].
  - split; [lia|]. rewrite Z.pow_add_r, Z.pow_1_r by lia. lia.
  - split; [lia|]. simpl. lia.
  - split; [lia|]. simpl. lia.
Qed.

(** Below [2^32 - 1] the count has a zero bit among its low 32 bits. *)
Lemma rightmost_zero_bound (n : Z) :
  0 <= n < 2 ^ 32 - 1 -> 0 <= rightmost_zero n < 32.
Proof.
  intros Hn. destruct n as [|p|p]; simpl; try lia.
  destruct (rightmost_zero_pos_bound p) as [H0 H1].
  split; [assumption|].
  destruct (Z_lt_le_dec (rightmost_zero_pos p) 32) as [|Hge]; [assumption|].
  pose proof (Z.pow_le_mono_r 2 32 (rightmost_zero_pos p) ltac:(lia) Hge).
  lia.
Qed.

Lemma fold_left_keeps_length {A B} (g : list A -> B -> list A)
      (ks : list B) (row : list A) :
  (forall r k, length (g r k) = length r) ->
  length (fold_left g ks row) = length row.
Proof.
  intros Hg. revert row; induction ks as [|k ks IH]; intros row; simpl;
    [reflexivity|]. now rewrite IH, Hg.
Qed.

Lemma sobol_direction_row_length (d : nat) :
  length (sobol_direction_row d) = Z.to_nat MCO_SOBOL_BITS.
Proof.
  unfold sobol_direction_row.
  destruct (Nat.eqb d 0); [|destruct (Nat.ltb d 40)];
    rewrite ?fold_left_keeps_length; try apply repeat_length;
    intros; apply list_update_length.
Qed.

(** [mco_sobol_init] produces a well-formed state. *)
Lemma sobol_initial_state_wf (dim : Z) :
  1 <= dim <= MCO_SOBOL_MAX_DIM -> sobol_wf (sobol_initial_state dim).
Proof.
  intros Hd. unfold sobol_wf, sobol_initial_state. cbn [sb_dim sb_x sb_v].
  split; [exact Hd|]. split; [|split].
  - apply repeat_length.
  - rewrite length_map, length_seq. reflexivity.
  - apply Forall_forall. intros row Hrow.
    apply in_map_iff in Hrow as (d & <- & _).
    destruct (Nat.ltb d (Z.to_nat dim));
      [apply sobol_direction_row_length | apply repeat_length].
Qed.

Lemma mco_sobol_init_ok (s : mco_sobol) (dim : Z) :
  1 <= dim <= MCO_SOBOL_MAX_DIM ->
  mco_sobol_init (Some s) dim = (0, Some (sobol_initial_state dim)).
Proof.
  intros Hd. unfold mco_sobol_init, MCO_SOBOL_MAX_DIM in *.
  assert (Hw : wrap32 dim = dim) by (apply Z.mod_small; lia).
  rewrite Hw.
  destruct (Z.eqb_spec dim 0); [lia|].
  destruct (Z.ltb_spec 1024 dim); [lia|]. reflexivity.
Qed.

Section Sobol_props.
Context {D : Type} {AD : Arith D}.

(** The loops over the dimensions in [mco_sobol_skip] and in
    [mco_sobol_next] update the integer vector alike; the second one also
    writes the point. *)
Lemma sobol_dim_loops_agree (v : list (list Z)) (c : Z) (scale : D)
      (ds : list nat) (st : option (list Z * list D)) :
  fold_left
    (fun (x : option (list Z)) d =>
       match x with
       | None => None
       | Some x => option_map fst (sobol_xor_dim v c x d)
       end) ds (option_map fst st)
  = option_map fst
      (fold_left
         (fun (st : option (list Z * list D)) d =>
            match st with
            | None => None
            | Some (x, point) =>
                match sobol_xor_dim v c x d with
                | Some (x', xd') =>
                    Some (x', point ++ [dmul (of_u64 xd') scale])
                | None => None
                end
            end) ds st).
Proof.
  revert st; induction ds as [|d ds IH]; intros st; [reflexivity|].
  cbn [fold_left]. rewrite <- IH. f_equal.
  destruct st as [[x point]|]; [|reflexivity].
  cbn [option_map fst].
  destruct (sobol_xor_dim v c x d) as [[x' xd']|]; reflexivity.
Qed.

Lemma sobol_skip_body_next (s : mco_sobol) :
  sobol_skip_body s = option_map fst (mco_sobol_next (D := D) s).
Proof.
  unfold sobol_skip_body, mco_sobol_next.
  change (Some (sb_x s))
    with (option_map fst (Some (sb_x s, @nil D))).
  rewrite sobol_dim_loops_agree with
    (scale := ddiv d1 (of_u64 (Z.shiftl 1 MCO_SOBOL_BITS))).
  destruct (fold_left _ _ (Some (sb_x s, []))) as [[x' point]|];
    reflexivity.
Qed.

(** [n] turns of the skip loop and then one call of next: the same as
    [n + 1] calls of next. *)
Lemma sobol_skip_loop_next (n : nat) (s : mco_sobol) :
  match sobol_skip_loop n s with
  | Some s' => mco_sobol_next (D := D) s'
  | None => None
  end = sobol_next_n (S n) s.
Proof.
  revert s; induction n as [|n IH]; intros s; [reflexivity|].
  cbn [sobol_skip_loop].
  change (sobol_next_n (S (S n)) s)
    with (match mco_sobol_next (D := D) s with
          | Some (s', _) => sobol_next_n (S n) s'
          | None => None
          end).
  rewrite sobol_skip_body_next.
  destruct (mco_sobol_next s) as [[s' point]|]; cbn [option_map fst];
    [apply IH | reflexivity].
Qed.

(** On a well-formed state, and for a column [c] inside the table, the
    loop over the dimensions meets no index out of range. *)
Lemma sobol_dim_loop_defined (v : list (list Z)) (c : Z) (scale : D)
      (ds : list nat) (x : list Z) (point : list D) :
  Forall (fun row => length row = Z.to_nat MCO_SOBOL_BITS) v ->
  0 <= c < MCO_SOBOL_BITS ->
  (forall d, In d ds -> (d < length v)%nat /\ (d < length x)%nat) ->
  exists x' point',
    fold_left
      (fun (st : option (list Z * list D)) d =>
         match st with
         | None => None
         | Some (x, point) =>
             match sobol_xor_dim v c x d with
             | Some (x', xd') =>
                 Some (x', point ++ [dmul (of_u64 xd') scale])
             | None => None
             end
         end) ds (Some (x, point))
    = Some (x', point') /\
    length x' = length x /\
    length point' = (length point + length ds)%nat.
Proof.
  intros Hrows Hc. revert x point.
  induction ds as [|d ds IH]; intros x point Hds.
  - exists x, point. simpl. auto.
  - destruct (Hds d (or_introl eq_refl)) as [Hdv Hdx].
    destruct (nth_error v d) as [row|] eqn:Erow;
      [|apply nth_error_None in Erow; lia].
    destruct (nth_error x d) as [xd|] eqn:Exd;
      [|apply nth_error_None in Exd; lia].
    assert (Hrow : length row = Z.to_nat MCO_SOBOL_BITS).
    { apply (proj1 (Forall_forall _ v) Hrows). eapply nth_error_In; eauto. }
    destruct (nth_error row (Z.to_nat c)) as [vdc|] eqn:Evdc;
      [|apply nth_error_None in Evdc; lia].
    assert (Hxor : sobol_xor_dim v c x d
                   = Some (list_update x d (fun _ => Z.lxor xd vdc),
                           Z.lxor xd vdc)).
    { unfold sobol_xor_dim. rewrite Erow, Exd, Evdc.
      destruct (Z.ltb_spec c 0) as [|_]; [lia | reflexivity]. }
    cbn [fold_left]. cbv beta iota. rewrite Hxor.
    destruct (IH (list_update x d (fun _ => Z.lxor xd vdc))
                 (point ++ [dmul (of_u64 (Z.lxor xd vdc)) scale]))
      as (x' & point' & Hfold & Hx' & Hp').
    { intros d' Hd'. rewrite list_update_length.
      apply Hds. now right. }
    exists x', point'. split; [exact Hfold|].
    rewrite Hx', Hp', list_update_length, length_app. simpl. lia.
Qed.

Lemma mco_sobol_next_defined (s : mco_sobol) :
  sobol_wf s -> 0 <= sb_count s < 2 ^ 32 - 1 ->
  exists s' point,
    mco_sobol_next (D := D) s = Some (s', point) /\
    sobol_wf s' /\ sb_dim s' = sb_dim s /\
    sb_count s' = sb_count s + 1 /\
    length point = Z.to_nat (sb_dim s).
Proof.
  intros (Hdim & Hx & Hv & Hrows) Hcount.
  unfold mco_sobol_next.
  destruct (sobol_dim_loop_defined (sb_v s) (rightmost_zero (sb_count s))
              (ddiv d1 (of_u64 (Z.shiftl 1 MCO_SOBOL_BITS)))
              (seq 0 (Z.to_nat (sb_dim s))) (sb_x s) [])
    as (x' & point & Hfold & Hx' & Hp); try assumption.
  - apply rightmost_zero_bound; assumption.
  - intros d Hd. apply in_seq in Hd. rewrite Hx, Hv.
    unfold MCO_SOBOL_MAX_DIM in *. lia.
  - rewrite Hfold. eexists _, _. split; [reflexivity|].
    unfold sobol_wf. cbn [sb_dim sb_count sb_x sb_v].
    rewrite length_seq in Hp.
    split; [split; [exact Hdim | split; [congruence | split; assumption]]|].
    split; [reflexivity|].
    split; [unfold wrap32; apply Z.mod_small; lia | exact Hp].
Qed.

Lemma sobol_next_n_defined (n : nat) (s : mco_sobol) :
  sobol_wf s -> 0 <= sb_count s ->
  sb_count s + Z.of_nat n < 2 ^ 32 - 1 ->
  exists s' point,
    sobol_next_n (D := D) (S n) s = Some (s', point) /\
    sb_count s' = sb_count s + Z.of_nat n + 1 /\
    length point = Z.to_nat (sb_dim s).
Proof.
  revert s; induction n as [|n IH]; intros s Hwf H0 Hlt.
  - destruct (mco_sobol_next_defined s Hwf ltac:(lia))
      as (s' & point & Hnext & _ & _ & Hc & Hp).
    exists s', point. cbn [sobol_next_n].
    split; [exact Hnext|]. split; [lia | exact Hp].
  - destruct (mco_sobol_next_defined s Hwf ltac:(lia))
      as (s1 & point1 & Hnext & Hwf1 & Hd1 & Hc1 & _).
    destruct (IH s1 Hwf1 ltac:(lia) ltac:(lia))
      as (s' & point & Hn & Hc & Hp).
    exists s', point.
    change (sobol_next_n (S (S n)) s)
      with (match mco_sobol_next (D := D) s with
            | Some (s', _) => sobol_next_n (S n) s'
            | None => None
            end).
    rewrite Hnext. split; [exact Hn|]. split; [lia | congruence].
Qed.

Lemma mco_sobol_reset_wf (s : mco_sobol) :
  sobol_wf s -> sobol_wf (mco_sobol_reset s).
Proof.
  intros (Hdim & Hx & Hv & Hrows). unfold sobol_wf, mco_sobol_reset.
  cbn [sb_dim sb_x sb_v].
  split; [exact Hdim|]. split; [|split; assumption].
  rewrite fold_left_keeps_length; [assumption|].
  intros; apply list_update_length.
Qed.

(** C7. For a Sobol state and a count [k], reset, then [skip(k)], then one
    [next] gives the same state (index and integer vector) and the same
    point as reset followed by [k + 1] calls of [next]; on a state from
    [mco_sobol_init], and while the 32-bit index has not run out
    ([k < 2^32 - 1]), both are defined, with index [k + 1] and one
    coordinate per dimension. *)
Theorem sobol_skip_next_agrees (s : mco_sobol) (k : Z) :
  let s0 := mco_sobol_reset s in
  sobol_skip_next (D := D) s0 k = sobol_next_n (S (Z.to_nat k)) s0 /\
  (sobol_wf s -> 0 <= k < 2 ^ 32 - 1 ->
   exists s' point,
     sobol_skip_next (D := D) s0 k = Some (s', point) /\
     sb_count s' = k + 1 /\
     length point = Z.to_nat (sb_dim s)).
Proof.
  intros s0.
  assert (Heq : sobol_skip_next (D := D) s0 k
                = sobol_next_n (S (Z.to_nat k)) s0)
    by apply sobol_skip_loop_next.
  split; [exact Heq|].
  intros Hwf Hk. rewrite Heq.
  destruct (sobol_next_n_defined (Z.to_nat k) s0)
    as (s' & point & Hn & Hc & Hp).
  - apply mco_sobol_reset_wf; assumption.
  - simpl; lia.
  - simpl. lia.
  - exists s', point. simpl in Hc, Hp.
    split; [exact Hn|]. split; [lia | exact Hp].
Qed.

End Sobol_props.

(** Three dimensions, five points skipped, in double precision. *)
Lemma sobol_skip_next_agrees_witness :
  let s0 := mco_sobol_reset (sobol_initial_state 3) in
  sobol_wf (sobol_initial_state 3) /\ 0 <= 5 < 2 ^ 32 - 1 /\
  sobol_skip_next (D := float) s0 5 = sobol_next_n 6 s0 /\
  exists s' point,
    sobol_skip_next (D := float) s0 5 = Some (s', point) /\
    sb_count s' = 6 /\ length point = 3%nat.
Proof.
  intros s0.
  assert (Hwf : sobol_wf (sobol_initial_state 3))
    by (apply sobol_initial_state_wf; unfold MCO_SOBOL_MAX_DIM; lia).
  split; [exact Hwf|]. split; [lia|].
  destruct (sobol_skip_next_agrees (D := float) (sobol_initial_state 3) 5)
    as [Heq Hdef].
  split; [exact Heq|]. apply Hdef; [exact Hwf | lia].
Defined.

(** ** Further properties *)

Section European_props.
Context {D : Type} {AD : Arith D} {LD : Libm D}.

Lemma european_sim_iter (m : mco_gbm D) (strike : D)
      (type : mco_option_type) (k : nat) (r : mco_rng) (sum : D) :
  Nat.iter k (european_sim m strike type) (r, sum)
  = (snd (normal_draws k r),
     fold_left (fun sum z =>
                  dadd sum (mco_payoff (mco_gbm_terminal m z) strike type))
               (fst (normal_draws k r)) sum).
Proof.
  revert r sum; induction k as [|k IH]; intros r sum; [reflexivity|].
  rewrite Nat.iter_succ_r, normal_draws_S.
  unfold european_sim at 2, mco_gbm_simulate.
  destruct (mco_rng_normal r) as [r1 z].
  rewrite IH.
  destruct (normal_draws k r1) as [zs r2]; reflexivity.
Qed.

(** Unlike the pricers of C10, the single-threaded European pricer draws
    from the master RNG itself: it leaves the context with the RNG
    advanced by one normal draw per path, and returns the discounted mean
    of the payoffs of these draws. *)
Lemma price_european_basic_draws (c : mco_ctx D)
      (spot strike rate volatility time_to_maturity : D)
      (type : mco_option_type) :
  let m := mco_gbm_init spot rate volatility time_to_maturity in
  let n := num_simulations c in
  let draws := normal_draws (Z.to_nat n) (rng c) in
  price_european_basic c spot strike rate volatility time_to_maturity type
  = (set_rng c (snd draws),
     dmul (g_discount m)
          (ddiv (fold_left
                   (fun sum z =>
                      dadd sum (mco_payoff (mco_gbm_terminal m z) strike type))
                   (fst draws) d0)
                (of_u64 n))).
Proof.
  unfold price_european_basic. rewrite european_sim_iter. reflexivity.
Qed.

End European_props.

(** ** The generator never reaches the zero state *)

Lemma u64_wrap z : u64 (wrap64 z).
Proof. unfold u64, wrap64. apply Z.mod_pos_bound. lia. Qed.

Lemma u64_bits z : 0 <= z ->
  (z < 2 ^ 64 <-> forall i, 64 <= i -> Z.testbit z i = false).
Proof.
  intros Hz. split.
  - intros Hlt i Hi. destruct (Z.eq_dec z 0) as [->|Hne].
    + apply Z.testbit_0_l.
    + apply Z.bits_above_log2; [lia|].
      assert (Z.log2 z < 64) by (apply Z.log2_lt_pow2; lia). lia.
  - intros Hb. destruct (Z.eq_dec z 0) as [->|Hne]; [lia|].
    apply Z.log2_lt_pow2; [lia|].
    destruct (Z_lt_le_dec (Z.log2 z) 64) as [|Hge]; [assumption|].
    specialize (Hb (Z.log2 z) Hge).
    rewrite Z.bit_log2 in Hb by lia. discriminate.
Qed.

Lemma u64_lxor a b : u64 a -> u64 b -> u64 (Z.lxor a b).
Proof.
  intros [Ha Ha'] [Hb Hb'].
  assert (H0 : 0 <= Z.lxor a b) by (apply Z.lxor_nonneg; lia).
  split; [assumption|].
  apply u64_bits; [assumption|]. intros i Hi.
  rewrite Z.lxor_spec.
  rewrite (proj1 (u64_bits a Ha) Ha' i Hi), (proj1 (u64_bits b Hb) Hb' i Hi).
  reflexivity.
Qed.

Lemma u64_lor a b : u64 a -> u64 b -> u64 (Z.lor a b).
Proof.
  intros [Ha Ha'] [Hb Hb'].
  assert (H0 : 0 <= Z.lor a b) by (apply Z.lor_nonneg; lia).
  split; [assumption|].
  apply u64_bits; [assumption|]. intros i Hi.
  rewrite Z.lor_spec.
  rewrite (proj1 (u64_bits a Ha) Ha' i Hi), (proj1 (u64_bits b Hb) Hb' i Hi).
  reflexivity.
Qed.

Lemma u64_shiftr a k : 0 <= k -> u64 a -> u64 (Z.shiftr a k).
Proof.
  intros Hk [Ha Ha']. rewrite Z.shiftr_div_pow2 by assumption.
  assert (0 < 2 ^ k) by (apply Z.pow_pos_nonneg; lia).
  split.
  - apply Z.div_pos; lia.
  - apply Z.le_lt_trans with a; [|assumption].
    apply Z.div_le_upper_bound; [lia|]. nia.
Qed.

Lemma u64_rotl x k : 0 <= k <= 64 -> u64 x -> u64 (rotl x k).
Proof.
  intros Hk Hx. unfold rotl. apply u64_lor.
  - apply u64_wrap.
  - apply u64_shiftr; [lia | assumption].
Qed.

Lemma rotl_zero x k : 0 <= k < 64 -> u64 x -> rotl x k = 0 -> x = 0.
Proof.
  intros Hk [Hx Hx'] H. unfold rotl in H.
  apply Z.lor_eq_0_iff in H. destruct H as [Hl Hr].
  apply Z.bits_inj'. intros i Hi. rewrite Z.testbit_0_l.
  destruct (Z_lt_le_dec i (64 - k)) as [Hlow|Hhigh].
  - (* the bit lands at position i + k of the left part *)
    assert (Hb : Z.testbit (wrap64 (Z.shiftl x k)) (i + k) = false)
      by (rewrite Hl; apply Z.testbit_0_l).
    unfold wrap64 in Hb.
    rewrite Z.mod_pow2_bits_low in Hb by lia.
    rewrite Z.shiftl_spec in Hb by lia.
    replace (i + k - k) with i in Hb by lia. assumption.
  - assert (Hb : Z.testbit (Z.shiftr x (64 - k)) (i - (64 - k)) = false)
      by (rewrite Hr; apply Z.testbit_0_l).
    rewrite Z.shiftr_spec in Hb by lia.
    replace (i - (64 - k) + (64 - k)) with i in Hb by lia. assumption.
Qed.

(** [x = (x << 17) mod 2^64] forces [x = 0]: every bit of [x] equals the
    bit seventeen places below it. *)
Lemma shl17_fixed x : u64 x -> x = wrap64 (Z.shiftl x 17) -> x = 0.
Proof.
  intros [Hx Hx'] H.
  apply Z.bits_inj'. intros i Hi. rewrite Z.testbit_0_l.
  revert i Hi. apply (Zlt_0_ind (fun i => Z.testbit x i = false)).
  intros i IH Hi.
  destruct (Z_lt_le_dec i 64) as [Hlt|Hge].
  - rewrite H. unfold wrap64. rewrite Z.mod_pow2_bits_low by lia.
    destruct (Z_lt_le_dec i 17) as [Hl|Hh].
    + apply Z.shiftl_spec_low; lia.
    + rewrite Z.shiftl_spec by lia. apply IH; lia.
  - apply (proj1 (u64_bits x Hx) Hx'); assumption.
Qed.

(** The state transition of xoshiro256** sends no state but the zero
    state to the zero state. *)
Lemma mco_rng_next_nonzero (r : mco_rng) :
  rng_words_ok r -> ~ rng_all_zero r ->
  rng_words_ok (fst (mco_rng_next r)) /\
  ~ rng_all_zero (fst (mco_rng_next r)) /\
  u64 (snd (mco_rng_next r)).
Proof.
  intros (H0 & H1 & H2 & H3) Hnz.
  unfold mco_rng_next; cbn [fst snd].
  split; [|split].
  - unfold rng_words_ok; cbn [s0 s1 s2 s3].
    split; [|split; [|split]].
    + apply u64_lxor; [assumption | now apply u64_lxor].
    + apply u64_lxor; [assumption | now apply u64_lxor].
    + apply u64_lxor; [now apply u64_lxor | apply u64_wrap].
    + apply u64_rotl; [lia | now apply u64_lxor].
  - intros (E0 & E1 & E2 & E3); cbn [s0 s1 s2 s3] in *.
    apply Hnz.
    apply rotl_zero in E3; [|lia | now apply u64_lxor].
    apply Z.lxor_eq in E3.
    rewrite E3, Z.lxor_nilpotent, Z.lxor_0_r in E0.
    rewrite E0, Z.lxor_0_r in E1, E2.
    apply Z.lxor_eq in E1.
    rewrite <- E1 in E2. apply Z.lxor_eq in E2.
    apply shl17_fixed in E2; [|assumption].
    unfold rng_all_zero. repeat split; congruence.
  - apply u64_wrap.
Qed.

Lemma splitmix64_u64 st :
  u64 (fst (splitmix64 st)) /\ u64 (snd (splitmix64 st)).
Proof.
  unfold splitmix64; cbn [fst snd]. split; [apply u64_wrap|].
  apply u64_lxor; [apply u64_wrap|].
  apply u64_shiftr; [lia | apply u64_wrap].
Qed.

Lemma mco_rng_seed_words_ok sd : rng_words_ok (mco_rng_seed sd).
Proof.
  unfold mco_rng_seed.
  pose proof (splitmix64_u64 sd) as [_ H0].
  destruct (splitmix64 sd) as [st1 w0]; cbn [snd] in H0.
  pose proof (splitmix64_u64 st1) as [_ H1].
  destruct (splitmix64 st1) as [st2 w1]; cbn [snd] in H1.
  pose proof (splitmix64_u64 st2) as [_ H2].
  destruct (splitmix64 st2) as [st3 w2]; cbn [snd] in H2.
  pose proof (splitmix64_u64 st3) as [_ H3].
  destruct (splitmix64 st3) as [st4 w3]; cbn [snd] in H3.
  destruct ((w0 =? 0) && (w1 =? 0) && (w2 =? 0) && (w3 =? 0));
    unfold rng_words_ok; cbn [s0 s1 s2 s3]; repeat split; try tauto;
    unfold u64; try lia; apply H0 || apply H1 || apply H2 || apply H3.
Qed.

Lemma mco_rng_seed_not_all_zero sd : ~ rng_all_zero (mco_rng_seed sd).
Proof.
  unfold mco_rng_seed, rng_all_zero.
  destruct (splitmix64 sd) as [st1 w0].
  destruct (splitmix64 st1) as [st2 w1].
  destruct (splitmix64 st2) as [st3 w2].
  destruct (splitmix64 st3) as [st4 w3].
  destruct ((w0 =? 0) && (w1 =? 0) && (w2 =? 0) && (w3 =? 0)) eqn:E;
    cbn [s0 s1 s2 s3].
  - intros [H _]; discriminate H.
  - intros (H0 & H1 & H2 & H3); subst. simpl in E; discriminate E.
Qed.


(** From any seed, after any number of draws, the four words of the
    generator are 64-bit words and not all zero: [mco_rng_seed] starts
    outside the zero state and [mco_rng_next] never enters it. *)
Theorem seeded_rng_never_zero (sd : Z) (n : nat) :
  rng_words_ok (rng_advance n (mco_rng_seed sd)) /\
  ~ rng_all_zero (rng_advance n (mco_rng_seed sd)).
Proof.
  induction n as [|n [IHok IHnz]].
  - split; [apply mco_rng_seed_words_ok | apply mco_rng_seed_not_all_zero].
  - unfold rng_advance in *. rewrite Nat.iter_succ.
    destruct (mco_rng_next_nonzero _ IHok IHnz) as (Hok & Hnz & _).
    split; assumption.
Qed.


(** ** Contexts configured by setters *)

Section Ctx_props.
Context {D : Type} {AD : Arith D}.

Lemma run_ctx_call_ok (c : mco_ctx D) (call : ctx_call D) :
  ctx_config_ok c ->
  exists c', run_ctx_call (Some c) call = Some c' /\ ctx_config_ok c'.
Proof.
  intros (Hs & Ht & Hth & Ha & Hm & Hr & He).
  destruct call as [n|n|sd|n|e|a b r nu]; cbn [run_ctx_call].
  - unfold mco_set_simulations. destruct (Z.ltb_spec 0 n).
    + eexists; split; [reflexivity|]. unfold ctx_config_ok; cbn.
      repeat split; auto; lia.
    + eexists; split; [reflexivity|]. unfold ctx_config_ok; auto 10.
  - unfold mco_set_steps. destruct (Z.ltb_spec 0 n).
    + eexists; split; [reflexivity|]. unfold ctx_config_ok; cbn.
      repeat split; auto; lia.
    + eexists; split; [reflexivity|]. unfold ctx_config_ok; auto 10.
  - eexists; split; [reflexivity|]. unfold ctx_config_ok; cbn.
    repeat split; auto.
  - eexists; split; [reflexivity|]. unfold ctx_config_ok; cbn.
    repeat split; auto. destruct (Z.ltb_spec 0 n); lia.
  - eexists; split; [reflexivity|]. unfold ctx_config_ok; cbn.
    repeat split; auto. destruct (e =? 0); auto.
  - eexists; split; [reflexivity|]. unfold ctx_config_ok; cbn.
    repeat split; auto.
Qed.

Lemma run_ctx_call_null (calls : list (ctx_call D)) :
  fold_left run_ctx_call calls None = None.
Proof.
  induction calls as [|call calls IH]; [reflexivity|].
  cbn [fold_left]. destruct call; exact IH.
Qed.


(** Whatever setters are called on a new context, with whatever
    arguments, the context keeps positive counts of simulations, steps and
    threads, an antithetic flag of 0 or 1 and a model of 0 or 2, its RNG
    is the one its stored seed gives, and no error is recorded; the
    context is null exactly when the allocation of [mco_ctx_new]
    failed. *)
Theorem ctx_config_invariant (h : host) (calls : list (ctx_call D)) :
  match ctx_configured h calls with
  | Some c => malloc_ok h sizeof_mco_ctx = true /\ ctx_config_ok c
  | None => malloc_ok h sizeof_mco_ctx = false
  end.
Proof.
  unfold ctx_configured, mco_ctx_new.
  destruct (malloc_ok h sizeof_mco_ctx).
  - set (c0 := mk_ctx _ _ _ _ _ _ _ _ _ _ _ _ _ _).
    assert (H0 : ctx_config_ok c0).
    { unfold ctx_config_ok, c0, MCO_DEFAULT_SIMULATIONS, MCO_DEFAULT_STEPS,
        MCO_DEFAULT_THREADS; cbn.
      repeat split; auto; lia. }
    clearbody c0. revert c0 H0.
    induction calls as [|call calls IH]; intros c0 H0; cbn [fold_left].
    + auto.
    + destruct (run_ctx_call_ok c0 call H0) as (c' & -> & H').
      apply IH; assumption.
  - now rewrite run_ctx_call_null.
Qed.

End Ctx_props.


(** ** The European pricer and its thread pool *)

Section European_more.
Context {D : Type} {AD : Arith D} {LD : Libm D}.

Lemma mco_parallel_european_ctx (h : host) (c : mco_ctx D)
      (spot strike rate volatility time_to_maturity : D) (type : Z) :
  let c' := fst (mco_parallel_european h c spot strike rate volatility
                                       time_to_maturity type) in
  c' = c \/ exists e, c' = set_last_error c e.
Proof.
  unfold mco_parallel_european.
  destruct (negb (malloc_ok h _)); [right; eexists; reflexivity|].
  destruct (negb (malloc_ok h _)); [right; eexists; reflexivity|].
  destruct (negb (forallb _ _)); [right; eexists; reflexivity|].
  destruct (fold_left _ _ _); left; reflexivity.
Qed.

Lemma mco_parallel_european_reads (h : host) (c1 c2 : mco_ctx D)
      (spot strike rate volatility time_to_maturity : D) (type : Z) :
  same_draw_config c1 c2 ->
  snd (mco_parallel_european h c1 spot strike rate volatility
                             time_to_maturity type)
  = snd (mco_parallel_european h c2 spot strike rate volatility
                               time_to_maturity type).
Proof.
  intros (Hn & Ht & Ha & Hr). unfold mco_parallel_european.
  rewrite Hn, Ht, Ha, Hr.
  destruct (negb (malloc_ok h _)); [reflexivity|].
  destruct (negb (malloc_ok h _)); [reflexivity|].
  destruct (negb (forallb _ _)); [reflexivity|].
  destruct (fold_left _ _ _); reflexivity.
Qed.

Lemma same_draw_config_set_last_error (c : mco_ctx D) e :
  same_draw_config (set_last_error c e) c.
Proof. unfold same_draw_config; cbn; auto. Qed.

Lemma same_draw_config_refl (c : mco_ctx D) : same_draw_config c c.
Proof. unfold same_draw_config; auto. Qed.

(** The multi-threaded estimator reads the master RNG without advancing
    it: the context comes back with at most another last-error code, and
    a second call returns the same price. *)
Theorem mco_parallel_european_frame (h : host) (c : mco_ctx D)
        (spot strike rate volatility time_to_maturity : D) (type : Z) :
  let run c := mco_parallel_european h c spot strike rate volatility
                                     time_to_maturity type in
  same_but_last_error (Some c) (Some (fst (run c))) /\
  snd (run (fst (run c))) = snd (run c).
Proof.
  intros run. unfold run.
  destruct (mco_parallel_european_ctx h c spot strike rate volatility
              time_to_maturity type) as [E|[e E]]; cbv zeta in E; rewrite E.
  - split; [cbn; auto 20 | reflexivity].
  - split; [cbn; auto 20|].
    apply mco_parallel_european_reads, same_draw_config_set_last_error.
Qed.

(** What the European pricer leaves of the fields it reads: everything
    but the RNG position. *)
Lemma mco_price_european_keeps (h : host) (c : mco_ctx D)
      (spot strike rate volatility time_to_maturity : D)
      (type : mco_option_type) :
  exists c',
    fst (mco_price_european h (Some c) spot strike rate volatility
                            time_to_maturity type) = Some c' /\
    num_simulations c' = num_simulations c /\
    num_threads c' = num_threads c /\
    antithetic_enabled c' = antithetic_enabled c.
Proof.
  unfold mco_price_european.
  destruct (input_rejected _ _ _ _); [eexists; split; [reflexivity|cbn; auto]|].
  destruct (1 <? num_threads c).
  - pose proof (mco_parallel_european_ctx h c spot strike rate volatility
                  time_to_maturity (int_of_option_type type)) as Hc.
    destruct (mco_parallel_european _ _ _ _ _ _ _ _) as [c' p].
    cbn [fst] in *. exists c'; split; [reflexivity|].
    destruct Hc as [->|[e ->]]; cbn; auto.
  - destruct (negb (antithetic_enabled c =? 0)).
    + unfold price_european_antithetic.
      destruct (mco_antithetic_european _ _ _ _ _) as [r p].
      eexists; split; [reflexivity|cbn; auto].
    + unfold price_european_basic.
      destruct (Nat.iter _ _ _) as [r sum].
      eexists; split; [reflexivity|cbn; auto].
Qed.

Lemma mco_price_european_reads (h : host) (c1 c2 : mco_ctx D)
      (spot strike rate volatility time_to_maturity : D)
      (type : mco_option_type) :
  same_draw_config c1 c2 ->
  snd (mco_price_european h (Some c1) spot strike rate volatility
                          time_to_maturity type)
  = snd (mco_price_european h (Some c2) spot strike rate volatility
                            time_to_maturity type).
Proof.
  intros Hcfg. pose proof Hcfg as (Hn & Ht & Ha & Hr).
  unfold mco_price_european.
  destruct (input_rejected _ _ _ _); [reflexivity|].
  rewrite Ht, Ha.
  destruct (1 <? num_threads c2).
  - pose proof (mco_parallel_european_reads h c1 c2 spot strike rate
                  volatility time_to_maturity (int_of_option_type type)
                  Hcfg) as Hp.
    destruct (mco_parallel_european h c1 _ _ _ _ _ _).
    destruct (mco_parallel_european h c2 _ _ _ _ _ _).
    exact Hp.
  - destruct (negb (antithetic_enabled c2 =? 0)).
    + unfold price_european_antithetic. rewrite Hn, Hr.
      destruct (mco_antithetic_european _ _ _ _ _); reflexivity.
    + unfold price_european_basic. rewrite Hn, Hr.
      destruct (Nat.iter _ _ _); reflexivity.
Qed.

(** Seeding again undoes whatever the pricer drew: seed, price, seed,
    price returns the same price twice. *)
Theorem european_reseed_reproducible (h : host) (c : mco_ctx D) (sd : Z)
        (spot strike rate volatility time_to_maturity : D)
        (type : mco_option_type) :
  let price ctx := mco_price_european h ctx spot strike rate volatility
                                      time_to_maturity type in
  let first := price (mco_set_seed (Some c) sd) in
  snd (price (mco_set_seed (fst first) sd)) = snd first.
Proof.
  intros price first. unfold first, price. cbn [mco_set_seed].
  set (c0 := mk_ctx _ _ _ _ _ _ _ _ _ _ _ _ _ _).
  destruct (mco_price_european_keeps h c0 spot strike rate volatility
              time_to_maturity type) as (c' & -> & Hn & Ht & Ha).
  cbn [mco_set_seed].
  apply mco_price_european_reads.
  unfold same_draw_config, c0 in *; cbn in *. auto.
Qed.

End European_more.

Lemma list_update_app_head {A} (l1 l2 : list A) x f n :
  length l1 = n -> list_update (l1 ++ x :: l2) n f = l1 ++ f x :: l2.
Proof.
  intros <-. induction l1 as [|y l1 IH]; [reflexivity|].
  cbn [app length list_update]. now rewrite IH.
Qed.

Lemma fold_left_map_in {A B C} (f : A -> B -> A) (g : C -> B) l a :
  fold_left f (map g l) a = fold_left (fun a x => f a (g x)) l a.
Proof.
  revert a; induction l as [|x l IH]; intros a; [reflexivity|].
  cbn [map fold_left]. apply IH.
Qed.


Section Pool.
Context {D : Type} {AD : Arith D} {LD : Libm D}.

Lemma thread_work_init_units (q r : Z) (base : mco_rng) (T n : nat) :
  0 <= q -> 0 <= r -> (n <= T)%nat -> unit_start q r n < 2 ^ 64 ->
  fold_left (thread_work_init_step q r) (seq 0 n)
            (base, 0, repeat zero_work T)
  = (Nat.iter n mco_rng_jump base, unit_start q r n,
     map (initial_unit q r base) (seq 0 n) ++ repeat zero_work (T - n)).
Proof.
  intros Hq Hr. induction n as [|n IH]; intros Hn Hbound.
  - cbn [seq fold_left map app Nat.iter nat_rect]. rewrite Nat.sub_0_r.
    now rewrite unit_start_0.
  - pose proof (unit_start_step q r n Hq) as Hstep.
    rewrite fold_left_seq_S, IH by lia. cbn [Nat.add].
    unfold thread_work_init_step.
    assert (Hmin : 0 <= unit_start q r n).
    { rewrite <- (unit_start_0 q r Hr).
      apply unit_start_mono; [assumption | lia]. }
    assert (Hcount :
      wrap64 (q + (if Z.of_nat n <? r then 1 else 0))
      = q + (if Z.of_nat n <? r then 1 else 0)).
    { apply wrap64_small. rewrite unit_start_S in Hbound.
      destruct (Z.of_nat n <? r); lia. }
    rewrite Hcount, <- unit_start_S,
      (wrap64_small (unit_start q r (S n))) by lia.
    replace (T - n)%nat with (S (T - S n)) by lia.
    cbn [repeat].
    rewrite list_update_app_head by (now rewrite length_map, length_seq).
    rewrite seq_S, map_app. cbn [map Nat.add].
    rewrite <- app_assoc, Nat.iter_succ. reflexivity.
Qed.

Lemma mco_thread_work_init_units (T N : Z) (base : mco_rng) :
  1 <= T -> 0 <= N < 2 ^ 64 ->
  mco_thread_work_init (repeat zero_work (Z.to_nat T)) T base N
  = map (initial_unit (N / T) (N mod T) base) (seq 0 (Z.to_nat T)).
Proof.
  intros HT HN. unfold mco_thread_work_init.
  rewrite thread_work_init_units.
  - cbn [snd]. now rewrite Nat.sub_diag, app_nil_r.
  - apply Z.div_pos; lia.
  - apply Z.mod_pos_bound; lia.
  - lia.
  - rewrite unit_start_total; lia.
Qed.

Lemma worker_european_basic_unit (spot strike rate volatility time : D)
      (type anti : Z) (q r : Z) (base : mco_rng) (i : nat) :
  0 <= q ->
  let w := worker_european_basic
             (set_work_params spot strike rate volatility time type anti
                              (initial_unit q r base i)) in
  partial_sum w
  = payoff_sum_of_draws (mco_gbm_init spot rate volatility time) strike
      (option_type_of_int type) (unit_count q r i)
      (Nat.iter i mco_rng_jump base) /\
  start_sim w = unit_start q r i /\
  end_sim w = unit_start q r (S i).
Proof.
  intros Hq w. unfold w, worker_european_basic, set_work_params, initial_unit.
  cbn [w_spot w_strike w_rate w_volatility w_time_to_maturity w_option_type
       w_rng start_sim end_sim partial_sum partial_sum_sq w_antithetic].
  rewrite european_sim_iter.
  cbn [set_work_result partial_sum start_sim end_sim].
  split; [|split; reflexivity].
  unfold payoff_sum_of_draws, unit_count.
  rewrite unit_start_S.
  replace (unit_start q r i + (q + (if Z.of_nat i <? r then 1 else 0))
           - unit_start q r i)
    with (q + (if Z.of_nat i <? r then 1 else 0)) by lia.
  reflexivity.
Qed.

(** With plain workers, every allocation served and every thread started,
    the parallel estimator adds the per-thread sums in thread order and
    divides by the requested number of simulations: thread [i] sums the
    payoffs of its own share of draws from the master RNG jumped [i]
    times. *)
Theorem mco_parallel_european_basic_sum (h : host) (c : mco_ctx D)
        (spot strike rate volatility time_to_maturity : D) (type : Z) :
  let T := num_threads c in
  let N := num_simulations c in
  antithetic_enabled c = 0 ->
  1 <= T < 2 ^ 32 -> 0 <= N < 2 ^ 64 ->
  malloc_ok h (T * sizeof_mco_thread_work) = true ->
  malloc_ok h (wrap64 (T * sizeof_pthread_t)) = true ->
  (forall i, (i < Z.to_nat T)%nat -> pthread_create_ok h (Z.of_nat i) = true) ->
  mco_parallel_european h c spot strike rate volatility time_to_maturity type
  = (c,
     dmul (d_exp (dmul (dneg rate) time_to_maturity))
          (ddiv
             (fold_left
                (fun total i =>
                   dadd total
                     (payoff_sum_of_draws
                        (mco_gbm_init spot rate volatility time_to_maturity)
                        strike (option_type_of_int type)
                        (unit_count (N / T) (N mod T) i)
                        (Nat.iter i mco_rng_jump (rng c))))
                (seq 0 (Z.to_nat T)) d0)
             (of_u64 N))).
Proof.
  intros T N Hanti HT HN Hm1 Hm2 Hth.
  unfold mco_parallel_european. fold T N.
  rewrite Hm1, Hm2, Hanti. cbn [negb Z.eqb].
  assert (Hall : forallb (fun i => pthread_create_ok h (Z.of_nat i))
                         (seq 0 (Z.to_nat T)) = true).
  { apply forallb_forall. intros i Hi. apply in_seq in Hi.
    apply Hth; lia. }
  rewrite Hall. cbn [negb].
  rewrite mco_thread_work_init_units by lia.
  rewrite !map_map.
  set (q := N / T). set (r := N mod T).
  assert (Hq : 0 <= q) by (apply Z.div_pos; lia).
  assert (Hr : 0 <= r < T) by (apply Z.mod_pos_bound; lia).
  rewrite fold_left_map_in.
  assert (Hfold : forall n, (n <= Z.to_nat T)%nat ->
    fold_left
      (fun (a : D * Z) (x : nat) =>
         (dadd (fst a)
            (partial_sum
               (worker_european_basic
                  (set_work_params spot strike rate volatility
                     time_to_maturity type 0 (initial_unit q r (rng c) x)))),
          wrap64
            (snd a +
             wrap64
               (end_sim
                  (worker_european_basic
                     (set_work_params spot strike rate volatility
                        time_to_maturity type 0
                        (initial_unit q r (rng c) x))) -
                start_sim
                  (worker_european_basic
                     (set_work_params spot strike rate volatility
                        time_to_maturity type 0
                        (initial_unit q r (rng c) x)))))))
      (seq 0 n) (d0, 0)
    = (fold_left
         (fun total i =>
            dadd total
              (payoff_sum_of_draws
                 (mco_gbm_init spot rate volatility time_to_maturity)
                 strike (option_type_of_int type) (unit_count q r i)
                 (Nat.iter i mco_rng_jump (rng c))))
         (seq 0 n) d0,
       unit_start q r n)).
  { induction n as [|n IH]; intros Hn.
    - cbn [seq fold_left]. now rewrite unit_start_0 by lia.
    - rewrite !fold_left_seq_S, IH by lia. cbn [Nat.add fst snd].
      destruct (worker_european_basic_unit spot strike rate volatility
                  time_to_maturity type 0 q r (rng c) n Hq)
        as (-> & -> & ->).
      f_equal.
      assert (0 <= unit_start q r n).
      { rewrite <- (unit_start_0 q r) by lia.
        apply unit_start_mono; [assumption | lia]. }
      pose proof (unit_start_step q r n Hq).
      assert (unit_start q r (S n) <= N).
      { rewrite <- (unit_start_total T N) by lia. fold q r.
        apply unit_start_mono; [assumption | lia]. }
      rewrite (wrap64_small (unit_start q r (S n) - unit_start q r n))
        by lia.
      rewrite wrap64_small by lia. lia. }
  rewrite Hfold by lia.
  unfold q, r. rewrite unit_start_total by lia. reflexivity.
Qed.

End Pool.

(** Two threads share three simulations, in double precision. *)
Lemma mco_parallel_european_basic_sum_witness :
  let c := mk_ctx 3 252 42 2 0 0 0 0 d0 d1 d0 d0 (mco_rng_seed 42) MCO_OK in
  let spot := float_of_Z 100 in
  let strike := float_of_Z 100 in
  let rate := dlit (1 # 20) in
  let volatility := dlit (1 # 5) in
  let time_to_maturity := float_of_Z 1 in
  mco_parallel_european generous_host c spot strike rate volatility
                        time_to_maturity 0
  = (c,
     dmul (d_exp (dmul (dneg rate) time_to_maturity))
          (ddiv
             (fold_left
                (fun total i =>
                   dadd total
                     (payoff_sum_of_draws
                        (mco_gbm_init spot rate volatility time_to_maturity)
                        strike (option_type_of_int 0)
                        (unit_count (num_simulations c / num_threads c)
                                    (num_simulations c mod num_threads c) i)
                        (Nat.iter i mco_rng_jump (rng c))))
                (seq 0 (Z.to_nat (num_threads c))) d0)
             (of_u64 (num_simulations c)))).
Proof.
  intros c spot strike rate volatility time_to_maturity.
  apply (mco_parallel_european_basic_sum (D := float) generous_host c spot
           strike rate volatility time_to_maturity 0).
  - reflexivity.
  - cbn [num_threads c]. lia.
  - cbn [num_simulations c]. lia.
  - reflexivity.
  - reflexivity.
  - intros i _. reflexivity.
Defined.

(** ** Paths *)

Section Props.
Context {D : Type} {AD : Arith D} {LD : Libm D}.

Lemma gbm_path_from_draws (m : mco_gbm_path D) (n : nat) (r : mco_rng)
      (cur : D) :
  gbm_path_from m n r cur
  = (snd (normal_draws n r), path_of_draws m cur (fst (normal_draws n r))).
Proof.
  revert r cur; induction n as [|n IH]; intros r cur; [reflexivity|].
  change (gbm_path_from m (S n) r cur)
    with (let '(r1, z) := mco_rng_normal r in
          let nxt := mco_gbm_step m cur z in
          let '(r2, rest) := gbm_path_from m n r1 nxt in
          (r2, nxt :: rest)).
  rewrite normal_draws_S.
  destruct (mco_rng_normal r) as [r1 z]. cbv zeta.
  rewrite IH.
  destruct (normal_draws n r1) as [zs r2]. reflexivity.
Qed.

Lemma antithetic_path_from_draws (m : mco_gbm_path D) (n : nat)
      (r : mco_rng) (cur_plus cur_minus : D) :
  antithetic_path_from m n r cur_plus cur_minus
  = (snd (normal_draws n r),
     path_of_draws m cur_plus (fst (normal_draws n r)),
     path_of_draws m cur_minus (map dneg (fst (normal_draws n r)))).
Proof.
  revert r cur_plus cur_minus; induction n as [|n IH];
    intros r cur_plus cur_minus; [reflexivity|].
  cbn [antithetic_path_from]. rewrite normal_draws_S.
  destruct (mco_rng_normal r) as [r1 z].
  rewrite IH.
  destruct (normal_draws n r1) as [zs r2]. reflexivity.
Qed.

(** [mco_antithetic_path] draws one normal per step: the path it writes
    with [+Z] and the RNG it leaves are those of [mco_gbm_simulate_path]
    from the same state, and the other path is built from the same draws
    negated. *)
Theorem mco_antithetic_path_draws (m : mco_gbm_path D) (r : mco_rng) :
  let zs := fst (normal_draws (Z.to_nat (p_num_steps m)) r) in
  mco_gbm_simulate_path m r
  = (snd (normal_draws (Z.to_nat (p_num_steps m)) r),
     p_spot m :: path_of_draws m (p_spot m) zs) /\
  mco_antithetic_path m r
  = (fst (mco_gbm_simulate_path m r), snd (mco_gbm_simulate_path m r),
     p_spot m :: path_of_draws m (p_spot m) (map dneg zs)) /\
  length zs = Z.to_nat (p_num_steps m).
Proof.
  intros zs.
  assert (Hsim : mco_gbm_simulate_path m r
                 = (snd (normal_draws (Z.to_nat (p_num_steps m)) r),
                    p_spot m :: path_of_draws m (p_spot m) zs)).
  { unfold mco_gbm_simulate_path. rewrite gbm_path_from_draws. reflexivity. }
  split; [exact Hsim|]. split; [|apply normal_draws_length].
  rewrite Hsim. unfold mco_antithetic_path.
  rewrite antithetic_path_from_draws. reflexivity.
Qed.


End Props.


(** ** The first Sobol point and skipping *)

(** Every row of direction numbers starts with [2^31]. *)
Lemma sobol_direction_row_head (d : nat) :
  (d < Z.to_nat MCO_SOBOL_MAX_DIM)%nat ->
  nth_error (sobol_direction_row d) 0 = Some (2 ^ 31).
Proof.
  intros Hd.
  assert (Hall : forallb
            (fun d => match nth_error (sobol_direction_row d) 0 with
                      | Some w => w =? 2 ^ 31
                      | None => false
                      end)
            (seq 0 (Z.to_nat MCO_SOBOL_MAX_DIM)) = true)
    by (vm_compute; reflexivity).
  rewrite forallb_forall in Hall.
  specialize (Hall d ltac:(apply in_seq; lia)).
  destruct (nth_error (sobol_direction_row d) 0) as [w|]; [|discriminate].
  apply Z.eqb_eq in Hall. now subst.
Qed.

Lemma sobol_initial_state_row (dim : Z) (d : nat) :
  (d < Z.to_nat dim)%nat -> dim <= MCO_SOBOL_MAX_DIM ->
  nth_error (sb_v (sobol_initial_state dim)) d
  = Some (sobol_direction_row d).
Proof.
  intros Hd Hdim. unfold sobol_initial_state. cbn [sb_v].
  rewrite nth_error_map, nth_error_seq.
  assert (Hlt : (d <? Z.to_nat MCO_SOBOL_MAX_DIM)%nat = true)
    by (apply Nat.ltb_lt; lia).
  rewrite Hlt. cbn [option_map Nat.add].
  assert (Hlt' : (d <? Z.to_nat dim)%nat = true) by (apply Nat.ltb_lt; lia).
  now rewrite Hlt'.
Qed.

Section First.
Context {D : Type} {AD : Arith D}.

Lemma sobol_first_fold (v : list (list Z)) (scale : D) (k a : nat)
      (x : list Z) (point : list D) :
  (forall d, (a <= d < a + k)%nat ->
     exists row, nth_error v d = Some row /\
                 nth_error row 0 = Some (2 ^ 31)) ->
  (forall d, (a <= d < a + k)%nat -> nth_error x d = Some 0) ->
  exists x',
    fold_left
      (fun (st : option (list Z * list D)) d =>
         match st with
         | None => None
         | Some (x, point) =>
             match sobol_xor_dim v 0 x d with
             | Some (x', xd') =>
                 Some (x', point ++ [dmul (of_u64 xd') scale])
             | None => None
             end
         end) (seq a k) (Some (x, point))
    = Some (x', point ++ repeat (dmul (of_u64 (2 ^ 31)) scale) k).
Proof.
  revert a x point; induction k as [|k IH]; intros a x point Hv Hx.
  - exists x. cbn [seq fold_left repeat]. now rewrite app_nil_r.
  - destruct (Hv a ltac:(lia)) as (row & Erow & Ehead).
    assert (Hxor : sobol_xor_dim v 0 x a
                   = Some (list_update x a (fun _ => 2 ^ 31), 2 ^ 31)).
    { unfold sobol_xor_dim. rewrite Erow, (Hx a ltac:(lia)).
      cbn [Z.ltb Z.compare Z.to_nat]. rewrite Ehead. reflexivity. }
    cbn [seq fold_left]. cbv beta iota. rewrite Hxor.
    destruct (IH (S a) (list_update x a (fun _ => 2 ^ 31))
                 (point ++ [dmul (of_u64 (2 ^ 31)) scale]))
      as (x' & Hfold).
    + intros d Hd. apply Hv. lia.
    + intros d Hd. rewrite list_update_nth_other by lia. apply Hx. lia.
    + exists x'. rewrite Hfold. cbn [repeat].
      now rewrite <- app_assoc.
Qed.

Lemma sobol_first_point_gen (s : mco_sobol) (dim : Z) :
  1 <= dim <= MCO_SOBOL_MAX_DIM ->
  exists s0 s',
    mco_sobol_init (Some s) dim = (0, Some s0) /\
    mco_sobol_next (D := D) s0
    = Some (s', repeat (dmul (of_u64 (2 ^ 31))
                             (ddiv d1 (of_u64 (Z.shiftl 1 MCO_SOBOL_BITS))))
                       (Z.to_nat dim)) /\
    sb_count s' = 1 /\ sb_dim s' = dim.
Proof.
  intros Hd. exists (sobol_initial_state dim).
  rewrite mco_sobol_init_ok by exact Hd.
  unfold mco_sobol_next.
  change (sb_count (sobol_initial_state dim)) with 0.
  change (rightmost_zero 0) with 0.
  change (sb_dim (sobol_initial_state dim)) with dim.
  change (sb_x (sobol_initial_state dim))
    with (repeat 0 (Z.to_nat MCO_SOBOL_MAX_DIM)).
  destruct (sobol_first_fold (sb_v (sobol_initial_state dim))
              (ddiv d1 (of_u64 (Z.shiftl 1 MCO_SOBOL_BITS)))
              (Z.to_nat dim) 0
              (repeat 0 (Z.to_nat MCO_SOBOL_MAX_DIM)) [])
    as (x' & Hfold).
  - intros d Hdd. exists (sobol_direction_row d). split.
    + apply sobol_initial_state_row; lia.
    + apply sobol_direction_row_head. lia.
  - intros d Hdd. apply nth_error_repeat. lia.
  - rewrite Hfold. cbn [app]. eexists. split; [reflexivity|].
    split; [reflexivity|]. cbn [sb_count sb_dim]. split; reflexivity.
Qed.

End First.

(** After [mco_sobol_init] with a dimension in range, whatever the state
    was before, the first call of [mco_sobol_next] writes the point
    (0.5, ..., 0.5) in double precision and leaves the counter at 1. *)
Theorem sobol_first_point (s : mco_sobol) (dim : Z) :
  1 <= dim <= MCO_SOBOL_MAX_DIM ->
  exists s0 s',
    mco_sobol_init (Some s) dim = (0, Some s0) /\
    mco_sobol_next (D := float) s0
    = Some (s', repeat 0.5%float (Z.to_nat dim)) /\
    sb_count s' = 1 /\ sb_dim s' = dim.
Proof.
  intros Hd.
  destruct (sobol_first_point_gen (D := float) s dim Hd)
    as (s0 & s' & Hinit & Hnext & Hc & Hdim).
  exists s0, s'. split; [exact Hinit|]. split; [|split; assumption].
  rewrite Hnext. f_equal.
Qed.

(** Five dimensions. *)
Lemma sobol_first_point_witness :
  1 <= 5 <= MCO_SOBOL_MAX_DIM /\
  exists s0 s',
    mco_sobol_init (Some (sobol_initial_state 2)) 5 = (0, Some s0) /\
    mco_sobol_next (D := float) s0
    = Some (s', repeat 0.5%float (Z.to_nat 5)) /\
    sb_count s' = 1 /\ sb_dim s' = 5.
Proof.
  assert (H : 1 <= 5 <= MCO_SOBOL_MAX_DIM)
    by (unfold MCO_SOBOL_MAX_DIM; lia).
  split; [exact H|].
  exact (sobol_first_point (sobol_initial_state 2) 5 H).
Defined.

Lemma sobol_skip_loop_add (a b : nat) (s : mco_sobol) :
  sobol_skip_loop (a + b) s
  = match sobol_skip_loop a s with
    | Some s' => sobol_skip_loop b s'
    | None => None
    end.
Proof.
  revert s; induction a as [|a IH]; intros s; [reflexivity|].
  cbn [Nat.add sobol_skip_loop].
  destruct (sobol_skip_body s) as [s'|]; [apply IH | reflexivity].
Qed.


(** Skipping [a] points and then [b] points leaves the state that
    skipping [a + b] points at once leaves, failures included. *)
Theorem mco_sobol_skip_add (s : mco_sobol) (a b : Z) :
  0 <= a -> 0 <= b -> a + b < 2 ^ 64 ->
  mco_sobol_skip s (a + b)
  = match mco_sobol_skip s a with
    | Some s' => mco_sobol_skip s' b
    | None => None
    end.
Proof.
  intros Ha Hb _. unfold mco_sobol_skip.
  rewrite Z2Nat.inj_add by assumption. apply sobol_skip_loop_add.
Qed.

(** Three dimensions, two points and then three. *)
Lemma mco_sobol_skip_add_witness :
  0 <= 2 /\ 0 <= 3 /\ 2 + 3 < 2 ^ 64 /\
  mco_sobol_skip (sobol_initial_state 3) (2 + 3)
  = match mco_sobol_skip (sobol_initial_state 3) 2 with
    | Some s' => mco_sobol_skip s' 3
    | None => None
    end.
Proof.
  split; [lia|]. split; [lia|]. split; [lia|].
  apply (mco_sobol_skip_add (sobol_initial_state 3) 2 3); lia.
Defined.

(** ** The vanilla payoff in double precision *)

(** Subtracting a number from a strictly greater one, infinities
    included, never gives a negative number or a NaN. *)
Lemma SFsub_pos (a b : spec_float) :
  valid_binary a = true -> valid_binary b = true ->
  SFltb b a = true -> sf_nonneg (SFsub prec emax a b) = true.
Proof.
  intros Va Vb Hlt.
  assert (Hle : SFleb b a = true).
  { unfold SFltb in Hlt. unfold SFleb.
    destruct (SFcompare b a) as [[]|]; try discriminate; reflexivity. }
  destruct (sf_finite a) eqn:Fa; [destruct (sf_finite b) eqn:Fb|].
  - now apply SFsub_nonneg.
  - destruct b as [sb|sb| |sb mb eb]; try discriminate;
      destruct a as [sa|sa| |sa ma ea]; try discriminate;
      unfold SFltb in Hlt; cbn [SFcompare] in Hlt;
      destruct sb; try discriminate; reflexivity.
  - destruct a as [sa|sa| |sa ma ea]; try discriminate;
      destruct b as [sb|sb| |sb mb eb];
      unfold SFltb in Hlt; cbn [SFcompare] in Hlt;
      try discriminate; try (destruct sa; try discriminate; reflexivity).
    destruct sb, sa; try discriminate; reflexivity.
Qed.

Lemma float_sub_pos (a b : float) :
  PrimFloat.ltb b a = true ->
  PrimFloat.leb PrimFloat.zero (PrimFloat.sub a b) = true.
Proof.
  intros Hlt. rewrite ltb_spec in Hlt. rewrite leb_spec, sub_spec.
  change (Prim2SF PrimFloat.zero) with (S754_zero false).
  apply sf_nonneg_leb, SFsub_pos; try apply Prim2SF_valid. exact Hlt.
Qed.

(** In double precision the vanilla payoff is never negative and never a
    NaN, whatever the spot and the strike are (NaN and the infinities
    included). *)
Theorem mco_payoff_nonneg (spot strike : float) (type : mco_option_type) :
  dle d0 (mco_payoff spot strike type) = true.
Proof.
  rewrite float_d0.
  destruct type; cbn [mco_payoff]; unfold mco_payoff_call, mco_payoff_put;
    cbn [dlt dle dsub binary64].
  - destruct (PrimFloat.ltb strike spot) eqn:E.
    + now apply float_sub_pos.
    + rewrite float_d0. reflexivity.
  - destruct (PrimFloat.ltb spot strike) eqn:E.
    + now apply float_sub_pos.
    + rewrite float_d0. reflexivity.
Qed.

(** ** The closed-form barrier calls *)

Section Closed_props.
Context {D : Type} {AD : Arith D} {LD : Libm D} {LC : Libm_closed D}.

Lemma barrier_down_call_loops (spot strike barrier rate vol time : D) :
  dle spot barrier = false -> dle strike barrier = true ->
  forall fuel rebate,
    mco_barrier_down_out_call fuel spot strike barrier rebate rate vol time
    = None /\
    mco_barrier_down_in_call fuel spot strike barrier rebate rate vol time
    = None.
Proof.
  intros Hs Hk. induction fuel as [|fuel IH]; intros rebate.
  - split; reflexivity.
  - destruct (IH d0) as [IHout IHin].
    split.
    + simpl. rewrite Hs, Hk, IHin. reflexivity.
    + simpl. rewrite Hs, IHout. reflexivity.
Qed.

(** The closed-form down-and-out call and down-and-in call return a value
    exactly when [spot <= barrier] holds or [strike <= barrier] fails;
    for a spot above a barrier that is not below the strike they call
    each other without end. *)
Theorem barrier_down_call_returns
        (spot strike barrier rebate rate vol time : D) :
  ((exists fuel v,
      mco_barrier_down_out_call fuel spot strike barrier rebate rate vol
                                time = Some v)
   <-> (dle spot barrier = true \/ dle strike barrier = false)) /\
  ((exists fuel v,
      mco_barrier_down_in_call fuel spot strike barrier rebate rate vol
                               time = Some v)
   <-> (dle spot barrier = true \/ dle strike barrier = false)).
Proof.
  assert (Hloop : dle spot barrier = false -> dle strike barrier = true ->
            forall fuel rebate v,
              mco_barrier_down_out_call fuel spot strike barrier rebate
                                        rate vol time <> Some v /\
              mco_barrier_down_in_call fuel spot strike barrier rebate
                                       rate vol time <> Some v).
  { intros Hs Hk fuel rb v.
    destruct (barrier_down_call_loops spot strike barrier rate vol time
                Hs Hk fuel rb) as [-> ->].
    split; discriminate. }
  split; split.
  - intros (fuel & v & Hv).
    destruct (dle spot barrier) eqn:Hs; [now left|].
    destruct (dle strike barrier) eqn:Hk; [|now right].
    exfalso. exact (proj1 (Hloop eq_refl eq_refl fuel rebate v) Hv).
  - intros [Hs|Hk].
    + exists 1%nat. simpl. rewrite Hs.
      eexists; reflexivity.
    + exists 1%nat. simpl. rewrite Hk.
      destruct (dle spot barrier); eexists; reflexivity.
  - intros (fuel & v & Hv).
    destruct (dle spot barrier) eqn:Hs; [now left|].
    destruct (dle strike barrier) eqn:Hk; [|now right].
    exfalso. exact (proj2 (Hloop eq_refl eq_refl fuel rebate v) Hv).
  - intros [Hs|Hk].
    + exists 1%nat. simpl. rewrite Hs.
      eexists; reflexivity.
    + exists 2%nat.
      simpl. rewrite Hk. destruct (dle spot barrier); eexists; reflexivity.
Qed.

End Closed_props.

(* end of part II *)
